(** * yalispy: a shallow embedding of [lisp_parser.py]

    The interpreter is a Python 2 program (print statements, the builtin
    [reduce], [raw_input]).  Its functions are embedded here one by one,
    under their own names:

    - [parse_expression], [parse_tokens], [parse_list], [typed]: the reader;
    - [Environment] objects, with [lookup] and [set_var], living in a store
      because closures and callers share them by reference;
    - [evaluate] and [Procedure.__call__];
    - [init_default_environment] and its primitive procedures.

    Python integers are unbounded ([int] overflows into [long]), so they are
    [Z]; Python floats are IEEE binary64, modelled by [spec_float] with
    precision 53 and maximal exponent 1024; Python [str] is a byte string,
    modelled by [string]. *)

From Stdlib Require Import ZArith String Ascii List Lia.
From Stdlib Require Import Floats.SpecFloat.
From stdpp Require Import base option list gmap strings.

Set Warnings "-register-all".

Local Open Scope string_scope.
Local Open Scope list_scope.
Local Open Scope Z_scope.

(** ** Outcomes of running Python code *)

(** The exceptions the program can raise.  [NotDefined name] is the
    [Exception("%s is not defined" % name)] of [Environment.lookup];
    [UnsupportedExpression] is the [SyntaxError("Unsupported Expression")]
    of [evaluate]; the others are raised by the host language. *)
Inductive exn : Type :=
| IndexError
| TypeError
| ZeroDivisionError
| OverflowError
| MemoryError
| NotDefined (name : string)
| UnsupportedExpression.

(** A run either returns, raises, or needs more recursion steps than the
    model was given.  [HostDefined] marks the few comparisons that Python 2
    answers from type names and object addresses, an order the language
    leaves to its implementation and the model does not have. *)
Inductive outcome (A : Type) : Type :=
| Ok (a : A)
| Raise (e : exn)
| OutOfFuel
| HostDefined.

Arguments Ok {A} a.
Arguments Raise {A} e.
Arguments OutOfFuel {A}.
Arguments HostDefined {A}.

Definition bind {A B : Type} (m : outcome A) (k : A -> outcome B) : outcome B :=
  match m with
  | Ok a => k a
  | Raise e => Raise e
  | OutOfFuel => OutOfFuel
  | HostDefined => HostDefined
  end.

Notation "'let*' x ':=' m 'in' k" := (bind m (fun x => k))
  (at level 10, x pattern, m at level 100, k at level 200).

(** ** The tokenizer: [re.findall("\w+|[()+\-*/><=]", expression)] *)

(** [\w] on a byte string without flags: ASCII letters, digits, underscore. *)
Definition is_digit (c : ascii) : bool :=
  let n := nat_of_ascii c in ((48 <=? n) && (n <=? 57))%nat.

Definition is_word (c : ascii) : bool :=
  let n := nat_of_ascii c in
  (is_digit c
   || ((65 <=? n) && (n <=? 90))
   || ((97 <=? n) && (n <=? 122))
   || (n =? 95))%nat.

(** The character class [[()+\-*/><=]]. *)
Definition is_punct (c : ascii) : bool :=
  match c with
  | "("%char | ")"%char | "+"%char | "-"%char | "*"%char
  | "/"%char | ">"%char | "<"%char | "="%char => true
  | _ => false
  end.

(** A pending run of word characters becomes a token when the run ends. *)
Definition flush (word : string) (tokens : list string) : list string :=
  match word with
  | EmptyString => tokens
  | _ => word :: tokens
  end.

(** Left to right: the longest run of word characters is one token, a
    punctuation character is a token of its own, anything else is skipped. *)
Fixpoint scan (word : string) (s : string) : list string :=
  match s with
  | EmptyString => flush word []
  | String c rest =>
      if is_word c then scan (String.append word (String c EmptyString)) rest
      else flush word
             (if is_punct c then String c EmptyString :: scan EmptyString rest
              else scan EmptyString rest)
  end.

Definition tokenize (expression : string) : list string :=
  scan EmptyString expression.

(** ** Expression trees *)

(** What the reader builds: Python [int]/[long], [float], [str] and [list]. *)
Inductive exptree : Type :=
| EInt (z : Z)
| EFloat (f : spec_float)
| EStr (s : string)
| EList (l : list exptree).

(** ** [typed]: classifying a token *)

Definition digit_value (c : ascii) : Z := Z.of_nat (nat_of_ascii c) - 48.

(** Base-10 value of a string of digits, most significant first. *)
Fixpoint decimal (acc : Z) (s : string) : Z :=
  match s with
  | EmptyString => acc
  | String c rest => decimal (10 * acc + digit_value c) rest
  end.

Fixpoint all_digits (s : string) : bool :=
  match s with
  | EmptyString => true
  | String c rest => is_digit c && all_digits rest
  end.

Definition is_digits (s : string) : bool :=
  match s with
  | EmptyString => false
  | _ => all_digits s
  end.

(** [int(token)].  A token is a run of word characters or one punctuation
    character (lemma [tokenize_shape]); it holds no sign and no white space,
    so [int] accepts it exactly when it is a non-empty run of digits, and
    raises [ValueError] ([None]) otherwise. *)
Definition int_of_token (token : string) : option Z :=
  if is_digits token then Some (decimal 0 token) else None.

Definition lower (c : ascii) : ascii :=
  let n := nat_of_ascii c in
  if ((65 <=? n) && (n <=? 90))%nat then ascii_of_nat (n + 32) else c.

Fixpoint lowercase (s : string) : string :=
  match s with
  | EmptyString => EmptyString
  | String c rest => String (lower c) (lowercase rest)
  end.

(** Splits [s] at its first [e] or [E]. *)
Fixpoint split_exponent (s : string) : option (string * string) :=
  match s with
  | EmptyString => None
  | String c rest =>
      if (Ascii.eqb c "e" || Ascii.eqb c "E")%char then Some (EmptyString, rest)
      else match split_exponent rest with
           | Some (m, e) => Some (String c m, e)
           | None => None
           end
  end.

(** The binary64 number nearest to an integer (ties to even); an integer
    beyond the range rounds to an infinity. *)
Definition double_of_Z (z : Z) : spec_float := binary_normalize 53 1024 z 0 false.

(** [float(token)] on a token that [int] refused.  With no sign and no dot
    available, the accepted tokens are [digits e digits] (either case of the
    letter), read as the nearest double of [digits * 10 ^ digits], and the
    words [inf], [infinity] and [nan] in any case. *)
Definition float_of_token (token : string) : option spec_float :=
  let word := lowercase token in
  if String.eqb word "inf" || String.eqb word "infinity" then Some (S754_infinity false)
  else if String.eqb word "nan" then Some S754_nan
  else match split_exponent token with
       | Some (m, e) =>
           if is_digits m && is_digits e
           then Some (double_of_Z (decimal 0 m * 10 ^ decimal 0 e))
           else None
       | None => None
       end.

(** try [int], then [float], else the token itself. *)
Definition typed (token : string) : exptree :=
  match int_of_token token with
  | Some value => EInt value
  | None =>
      match float_of_token token with
      | Some value => EFloat value
      | None => EStr token
      end
  end.

(** ** The reader *)

(** [parse_tokens] and [parse_list] share one token list and pop from its
    front; here each returns the tokens it leaves.  Indexing or popping an
    empty list raises [IndexError].  The recursion is bounded by [fuel];
    [parse_fuel] is always enough (lemma [parse_tokens_enough]). *)
Fixpoint parse_tokens (fuel : nat) (tokens : list string)
  : outcome (exptree * list string) :=
  match fuel with
  | O => OutOfFuel
  | S fuel =>
      match tokens with
      | [] => Raise IndexError
      | token :: tokens =>
          if String.eqb token "(" then parse_list fuel tokens []
          else Ok (typed token, tokens)
      end
  end
with parse_list (fuel : nat) (tokens : list string) (lst : list exptree)
  : outcome (exptree * list string) :=
  match fuel with
  | O => OutOfFuel
  | S fuel =>
      match tokens with
      | [] => Raise IndexError
      | token :: rest =>
          if String.eqb token ")" then Ok (EList lst, rest)
          else
            let* (e, tokens) := parse_tokens fuel tokens in
            parse_list fuel tokens (lst ++ [e])
      end
  end.

Definition parse_fuel (tokens : list string) : nat := 2 * length tokens + 1.

Definition parse_expression (expression : string) : outcome exptree :=
  let tokens := tokenize expression in
  let* (tree, _) := parse_tokens (parse_fuel tokens) tokens in
  Ok tree.

(** ** Values *)

(** The procedures that [init_default_environment] defines. *)
Inductive primitive : Type :=
| Padd | Psubtract | Pmultiply | Pdivide
| Pfirst | Prest | Pcreate_list
| Pless_than | Pgreater_than | Pequals.

(** An [Environment] object has two fields, assigned once in [__init__]:
    the parent, a reference to another such object or [None], and the frame,
    a reference to a mutable [dict].  The object itself never changes, so it
    is a value here; the [dict] it points to lives in the store, at the
    address [frame]. *)
Inductive Environment : Type :=
| mkEnvironment (frame : nat) (parent_environment : option Environment).

Definition frame (self : Environment) : nat :=
  match self with mkEnvironment a _ => a end.

Definition parent_environment (self : Environment) : option Environment :=
  match self with mkEnvironment _ p => p end.

(** What [evaluate] can return: [None] (after a definition), the booleans
    bound to [true] and [false], numbers, lists, primitive procedures and
    [Procedure] objects.  [ident] tells two [Procedure] objects apart: an
    object is equal only to itself. *)
Inductive value : Type :=
| VNone
| VBool (b : bool)
| VInt (z : Z)
| VFloat (f : spec_float)
| VList (l : list value)
| VPrim (p : primitive)
| VProc (ident : nat) (parameters : exptree) (expression : exptree)
        (environment : Environment).

(** ** Numbers of the host language *)

Inductive number : Type :=
| NInt (z : Z)
| NFloat (f : spec_float).

(** [bool] is a subclass of [int]: [True] is 1 and [False] is 0. *)
Definition as_number (v : value) : option number :=
  match v with
  | VBool b => Some (NInt (if b then 1 else 0))
  | VInt z => Some (NInt z)
  | VFloat f => Some (NFloat f)
  | _ => None
  end.

(** Coercion to [float] in mixed arithmetic; an integer beyond the range of
    a double raises [OverflowError]. *)
Definition to_double (n : number) : outcome spec_float :=
  match n with
  | NFloat f => Ok f
  | NInt z =>
      match double_of_Z z with
      | S754_infinity _ => Raise OverflowError
      | f => Ok f
      end
  end.

(** A binary arithmetic operator: on two integers the integer operation,
    otherwise both operands become doubles; a non-number raises
    [TypeError]. *)
Definition arithmetic (iop : Z -> Z -> outcome Z)
    (fop : spec_float -> spec_float -> outcome spec_float)
    (x y : value) : outcome value :=
  match as_number x, as_number y with
  | Some (NInt a), Some (NInt b) => let* r := iop a b in Ok (VInt r)
  | Some a, Some b =>
      let* fa := to_double a in
      let* fb := to_double b in
      let* r := fop fa fb in
      Ok (VFloat r)
  | _, _ => Raise TypeError
  end.

Definition is_zero (f : spec_float) : bool :=
  match f with
  | S754_zero _ => true
  | _ => false
  end.

(** [x + y]: numbers add, lists concatenate. *)
Definition py_add (x y : value) : outcome value :=
  match x, y with
  | VList a, VList b => Ok (VList (a ++ b))
  | _, _ => arithmetic (fun a b => Ok (a + b)) (fun a b => Ok (SFadd 53 1024 a b)) x y
  end.

(** [x - y]. *)
Definition py_sub (x y : value) : outcome value :=
  arithmetic (fun a b => Ok (a - b)) (fun a b => Ok (SFsub 53 1024 a b)) x y.

(** The largest [Py_ssize_t] (and C [long]) of a 64-bit build. *)
Definition maxint : Z := 2 ^ 63 - 1.

(** [lst * n]: [n] copies of the list, none when [n] is negative.  A count
    that does not fit an index raises [OverflowError]; a result too long to
    index raises [MemoryError] (running out of memory on a shorter one is
    not modelled). *)
Definition repeat_list (l : list value) (n : Z) : outcome value :=
  if (n <? - maxint - 1) || (maxint <? n) then Raise OverflowError
  else if maxint <? Z.of_nat (length l) * n then Raise MemoryError
  else Ok (VList (concat (replicate (Z.to_nat n) l))).

(** [x * y]: numbers multiply, a list is repeated by an integer. *)
Definition py_mul (x y : value) : outcome value :=
  match x, as_number x, y, as_number y with
  | VList l, _, _, Some (NInt n) => repeat_list l n
  | _, Some (NInt n), VList l, _ => repeat_list l n
  | _, _, _, _ =>
      arithmetic (fun a b => Ok (a * b)) (fun a b => Ok (SFmul 53 1024 a b)) x y
  end.

(** [x / y] in Python 2: on two integers the quotient rounded down, on a
    float and anything the IEEE quotient; a zero divisor raises
    [ZeroDivisionError] in both cases. *)
Definition py_div (x y : value) : outcome value :=
  arithmetic
    (fun a b => if b =? 0 then Raise ZeroDivisionError else Ok (a / b))
    (fun a b => if is_zero b then Raise ZeroDivisionError else Ok (SFdiv 53 1024 a b))
    x y.

(** Exact comparison of an integer with a double. *)
Definition compare_Z_double (z : Z) (f : spec_float) : option comparison :=
  match f with
  | S754_nan => None
  | S754_infinity s => Some (if s then Gt else Lt)
  | S754_zero _ => Some (z ?= 0)
  | S754_finite s m e =>
      let mz := if s then Zneg m else Zpos m in
      Some (if 0 <=? e then z ?= mz * 2 ^ e else z * 2 ^ (- e) ?= mz)
  end.

(** Numeric comparison; [None] when a NaN is involved (unordered). *)
Definition compare_number (a b : number) : option comparison :=
  match a, b with
  | NInt x, NInt y => Some (x ?= y)
  | NFloat x, NFloat y => SFcompare x y
  | NInt x, NFloat y => compare_Z_double x y
  | NFloat x, NInt y => option_map CompOpp (compare_Z_double y x)
  end.

(** ** Equality, ordering and truth of values *)

Definition primitive_eqb (p q : primitive) : bool :=
  match p, q with
  | Padd, Padd | Psubtract, Psubtract | Pmultiply, Pmultiply
  | Pdivide, Pdivide | Pfirst, Pfirst | Prest, Prest
  | Pcreate_list, Pcreate_list | Pless_than, Pless_than
  | Pgreater_than, Pgreater_than | Pequals, Pequals => true
  | _, _ => false
  end.

Definition is_Eq (c : option comparison) : bool :=
  match c with
  | Some Eq => true
  | _ => false
  end.

(** [x == y].  Numbers compare by value, lists item by item, [None] and
    procedures by identity; values of different kinds are unequal.  Inside a
    list CPython first asks whether the two items are the same object, which
    only matters for two NaNs: the model does not track the identity of
    floats, so that one case is [HostDefined]. *)
Fixpoint py_eq (x y : value) : outcome bool :=
  match x, y with
  | VList a, VList b =>
      if (length a =? length b)%nat then
        (fix items (a b : list value) : outcome bool :=
           match a, b with
           | x :: a, y :: b =>
               let* same :=
                 match x, y with
                 | VFloat S754_nan, VFloat S754_nan => HostDefined
                 | _, _ => py_eq x y
                 end in
               if same then items a b else Ok false
           | _, _ => Ok true
           end) a b
      else Ok false
  | VNone, VNone => Ok true
  | VPrim p, VPrim q => Ok (primitive_eqb p q)
  | VProc i _ _ _, VProc j _ _ _ => Ok (i =? j)%nat
  | _, _ =>
      match as_number x, as_number y with
      | Some a, Some b => Ok (is_Eq (compare_number a b))
      | _, _ => Ok false
      end
  end.

Definition item_eq (x y : value) : outcome bool :=
  match x, y with
  | VFloat S754_nan, VFloat S754_nan => HostDefined
  | _, _ => py_eq x y
  end.

Inductive order : Type := Less | Greater.

Definition holds (op : order) (c : option comparison) : bool :=
  match op, c with
  | Less, Some Lt => true
  | Greater, Some Gt => true
  | _, _ => false
  end.

(** [x < y] and [x > y].  Numbers compare by value (a NaN is unordered);
    lists compare at their first unequal items, or by length when one is a
    prefix of the other.  For every other pair Python 2 answers from type
    names and addresses, "consistently but arbitrarily": [HostDefined]. *)
Fixpoint py_order (op : order) (x y : value) : outcome bool :=
  match x, y with
  | VList a, VList b =>
      (fix items (a b : list value) : outcome bool :=
         match a, b with
         | x :: a, y :: b =>
             let* same := item_eq x y in
             if same then items a b else py_order op x y
         | [], [] => Ok false
         | [], _ :: _ => Ok (holds op (Some Lt))
         | _ :: _, [] => Ok (holds op (Some Gt))
         end) a b
  | _, _ =>
      match as_number x, as_number y with
      | Some a, Some b => Ok (holds op (compare_number a b))
      | _, _ => HostDefined
      end
  end.

(** The truth value of an object, as [if] tests it: [None], [False], a zero
    of either numeric type and the empty list are false; every other value
    is true, a NaN and every procedure included. *)
Definition truth (v : value) : bool :=
  match v with
  | VNone => false
  | VBool b => b
  | VInt z => negb (z =? 0)
  | VFloat f => negb (is_zero f)
  | VList l => match l with [] => false | _ => true end
  | VPrim _ => true
  | VProc _ _ _ _ => true
  end.

(** ** The primitive procedures *)

Fixpoint fold (f : value -> value -> outcome value) (acc : value)
    (args : list value) : outcome value :=
  match args with
  | [] => Ok acc
  | y :: args => let* acc := f acc y in fold f acc args
  end.

(** [reduce(f, args)] without an initial value: left to right from the
    first item; [TypeError] on an empty sequence. *)
Definition reduce (f : value -> value -> outcome value) (args : list value)
  : outcome value :=
  match args with
  | [] => Raise TypeError
  | x :: args => fold f x args
  end.

Definition add (args : list value) : outcome value := reduce py_add args.
Definition subtract (args : list value) : outcome value := reduce py_sub args.
Definition multiply (args : list value) : outcome value := reduce py_mul args.
Definition divide (args : list value) : outcome value := reduce py_div args.

(** [args[0]] *)
Definition first (args : value) : outcome value :=
  match args with
  | VList (x :: _) => Ok x
  | VList [] => Raise IndexError
  | _ => Raise TypeError
  end.

(** [args[1:]] *)
Definition rest (args : value) : outcome value :=
  match args with
  | VList l => Ok (VList (tail l))
  | _ => Raise TypeError
  end.

Definition create_list (args : list value) : outcome value := Ok (VList args).

(** Item [i] of the argument tuple. *)
Definition arg (args : list value) (i : nat) : outcome value :=
  match args !! i with
  | Some v => Ok v
  | None => Raise IndexError
  end.

Definition less_than (args : list value) : outcome value :=
  let* x := arg args 0 in
  let* y := arg args 1 in
  let* b := py_order Less x y in
  Ok (VBool b).

Definition greater_than (args : list value) : outcome value :=
  let* x := arg args 0 in
  let* y := arg args 1 in
  let* b := py_order Greater x y in
  Ok (VBool b).

Definition equals (args : list value) : outcome value :=
  let* x := arg args 0 in
  let* y := arg args 1 in
  let* b := py_eq x y in
  Ok (VBool b).

(** [func( *args)] for a primitive.  [first] and [rest] are declared with
    one positional parameter, so any other number of arguments raises
    [TypeError]; the others take [*args]. *)
Definition call_primitive (p : primitive) (args : list value) : outcome value :=
  match p with
  | Padd => add args
  | Psubtract => subtract args
  | Pmultiply => multiply args
  | Pdivide => divide args
  | Pfirst => match args with [a] => first a | _ => Raise TypeError end
  | Prest => match args with [a] => rest a | _ => Raise TypeError end
  | Pcreate_list => create_list args
  | Pless_than => less_than args
  | Pgreater_than => greater_than args
  | Pequals => equals args
  end.

(** ** The store and [Environment] *)

(** A frame is a [dict].  Only [lookup] reads it, and always with a [str]
    key, so the model keeps the [str] keys. *)
Abbreviation dict := (gmap string value).

(** The mutable objects of a run: the frames, by address, and the counters
    that give the next frame its address and the next [Procedure] its
    identity. *)
Record store : Type := mkStore {
  frames : gmap nat dict;
  next_frame : nat;
  next_procedure : nat
}.

Definition empty_store : store :=
  {| frames := ∅; next_frame := 0; next_procedure := 0 |}.

Definition frame_at (st : store) (a : nat) : dict := default ∅ (frames st !! a).

(** [d[key] = v].  The key is whatever sits in the expression tree: a [str]
    is stored; a number is hashable and is stored by Python under a key no
    [lookup] ever asks for, so the model leaves [d] as it is; a list is
    unhashable and raises [TypeError]. *)
Definition setitem (d : dict) (key : exptree) (v : value) : outcome dict :=
  match key with
  | EStr s => Ok (<[s := v]> d)
  | EInt _ | EFloat _ => Ok d
  | EList _ => Raise TypeError
  end.

(** The items [zip] draws from [var_names]: the elements of a list, the
    one-character strings of a [str]; a number is not iterable. *)
Definition iterate (var_names : exptree) : outcome (list exptree) :=
  match var_names with
  | EList l => Ok l
  | EStr s => Ok (map (fun c => EStr (String c EmptyString)) (list_ascii_of_string s))
  | EInt _ | EFloat _ => Raise TypeError
  end.

(** [dict(pairs)]: later pairs overwrite earlier ones. *)
Fixpoint dict_of (pairs : list (exptree * value)) (d : dict) : outcome dict :=
  match pairs with
  | [] => Ok d
  | (k, v) :: pairs => let* d := setitem d k v in dict_of pairs d
  end.

(** [Environment(var_names, values, parent_environment)]: a new object with
    a new frame [dict(zip(var_names, values))]; [zip] stops at the shorter
    of the two. *)
Definition Environment_init (st : store) (var_names : exptree)
    (values : list value) (parent : option Environment)
  : outcome (Environment * store) :=
  let* names := iterate var_names in
  let* d := dict_of (combine names values) ∅ in
  Ok (mkEnvironment (next_frame st) parent,
      {| frames := <[next_frame st := d]> (frames st);
         next_frame := S (next_frame st);
         next_procedure := next_procedure st |}).

(** [Environment.lookup]: the local frame, else the parent, else the
    exception. *)
Fixpoint lookup (st : store) (self : Environment) (var_name : string)
  : outcome value :=
  match self with
  | mkEnvironment a parent =>
      match frame_at st a !! var_name with
      | Some v => Ok v
      | None =>
          match parent with
          | Some p => lookup st p var_name
          | None => Raise (NotDefined var_name)
          end
      end
  end.

(** [Environment.set_var]: [self.frame[var_name] = value]. *)
Definition set_var (st : store) (self : Environment) (var_name : exptree)
    (v : value) : outcome store :=
  let* d := setitem (frame_at st (frame self)) var_name v in
  Ok {| frames := <[frame self := d]> (frames st);
        next_frame := next_frame st;
        next_procedure := next_procedure st |}.

(** ** [Procedure] and [evaluate] *)

(** [Procedure(parameters, expression, environment)]: a new object. *)
Definition Procedure_init (st : store) (parameters expression : exptree)
    (environment : Environment) : value * store :=
  (VProc (next_procedure st) parameters expression environment,
   {| frames := frames st;
      next_frame := next_frame st;
      next_procedure := S (next_procedure st) |}).

(** [Procedure.__call__], over the evaluator it calls back. *)
Definition Procedure_call
    (evaluate : exptree -> Environment -> store -> outcome (value * store))
    (parameters expression : exptree) (environment : Environment)
    (args : list value) (st : store) : outcome (value * store) :=
  let* (frame, st) := Environment_init st parameters args (Some environment) in
  evaluate expression frame st.

(** [func( *args)]: a primitive, a [Procedure], or an object that cannot be
    called. *)
Definition call
    (evaluate : exptree -> Environment -> store -> outcome (value * store))
    (func : value) (args : list value) (st : store) : outcome (value * store) :=
  match func with
  | VPrim p => let* v := call_primitive p args in Ok (v, st)
  | VProc _ parameters expression environment =>
      Procedure_call evaluate parameters expression environment args st
  | _ => Raise TypeError
  end.

(** [[evaluate(arg, environment) for arg in args]], left to right. *)
Fixpoint evaluate_each
    (evaluate : exptree -> Environment -> store -> outcome (value * store))
    (args : list exptree) (environment : Environment) (st : store)
  : outcome (list value * store) :=
  match args with
  | [] => Ok ([], st)
  | a :: args =>
      let* (v, st) := evaluate a environment st in
      let* (vs, st) := evaluate_each evaluate args environment st in
      Ok (v :: vs, st)
  end.

(** [exptree[i]] on a list. *)
Definition item (l : list exptree) (i : nat) : outcome exptree :=
  match l !! i with
  | Some e => Ok e
  | None => Raise IndexError
  end.

(** [exptree[0] == name] *)
Definition is_symbol (e : exptree) (name : string) : bool :=
  match e with
  | EStr s => String.eqb s name
  | _ => false
  end.

(** [isinstance(z, int)]: an integer literal beyond a C [long] is read as a
    [long], which is not an [int]. *)
Definition is_int (z : Z) : bool := (- maxint - 1 <=? z) && (z <=? maxint).

(** [evaluate].  The tests run in the order of the source: [str], then
    [int] or [float], then the three special forms, which index the tree
    before anything checks that it is a list, then the call.  A [long] and
    an empty list fail at [exptree[0]], with [TypeError] and [IndexError].
    A tree built by the reader is one of the four kinds of [exptree], so the
    last [else] of the source, which raises [UnsupportedExpression], has no
    case here.  [fuel] bounds the depth of the calls of [evaluate]; Python's
    own recursion limit is not modelled. *)
Fixpoint evaluate (fuel : nat) (exptree : exptree) (environment : Environment)
    (st : store) {struct fuel} : outcome (value * store) :=
  match fuel with
  | O => OutOfFuel
  | S fuel =>
      match exptree with
      | EStr s => let* v := lookup st environment s in Ok (v, st)
      | EInt z => if is_int z then Ok (VInt z, st) else Raise TypeError
      | EFloat f => Ok (VFloat f, st)
      | EList [] => Raise IndexError
      | EList ((head :: tail) as l) =>
          if is_symbol head "def" || is_symbol head "define" then
            let* var := item l 1 in
            let* e := item l 2 in
            let* (val, st) := evaluate fuel e environment st in
            let* st := set_var st environment var val in
            Ok (VNone, st)
          else if is_symbol head "if" then
            let* predicate := item l 1 in
            let* true_clause := item l 2 in
            let* false_clause := item l 3 in
            let* (p, st) := evaluate fuel predicate environment st in
            if truth p then evaluate fuel true_clause environment st
            else evaluate fuel false_clause environment st
          else if is_symbol head "fn" || is_symbol head "lambda" then
            let* params := item l 1 in
            let* expression := item l 2 in
            Ok (Procedure_init st params expression environment)
          else
            let* (func, st) := evaluate fuel head environment st in
            let* (args, st) := evaluate_each (evaluate fuel) tail environment st in
            call (evaluate fuel) func args st
      end
  end.

(** ** [init_default_environment] *)

Definition init_default_environment (st : store) : outcome (Environment * store) :=
  let* (default_environment, st) := Environment_init st (EList []) [] None in
  let* st := set_var st default_environment (EStr "+") (VPrim Padd) in
  let* st := set_var st default_environment (EStr "-") (VPrim Psubtract) in
  let* st := set_var st default_environment (EStr "*") (VPrim Pmultiply) in
  let* st := set_var st default_environment (EStr "/") (VPrim Pdivide) in
  let* st := set_var st default_environment (EStr "first") (VPrim Pfirst) in
  let* st := set_var st default_environment (EStr "rest") (VPrim Prest) in
  let* st := set_var st default_environment (EStr "list") (VPrim Pcreate_list) in
  let* st := set_var st default_environment (EStr "true") (VBool true) in
  let* st := set_var st default_environment (EStr "false") (VBool false) in
  let* st := set_var st default_environment (EStr "<") (VPrim Pless_than) in
  let* st := set_var st default_environment (EStr ">") (VPrim Pgreater_than) in
  let* st := set_var st default_environment (EStr "=") (VPrim Pequals) in
  Ok (default_environment, st).

(** One line of the session: parse, then evaluate in a new default
    environment, keeping the value. *)
Definition run (fuel : nat) (expression : string) : outcome value :=
  let* exptree := parse_expression expression in
  let* (environment, st) := init_default_environment empty_store in
  let* (v, _) := evaluate fuel exptree environment st in
  Ok v.

(** The loop of [repl] over the lines it reads, as far as they are given:
    each line is parsed and evaluated in the one environment of the session,
    and its value printed; the line [quit] ends the loop.  An exception ends
    the run.  The result holds the printed values and the store the session
    has reached. *)
Fixpoint repl_loop (fuel : nat) (environment : Environment) (st : store)
    (lines : list string) : outcome (list value * store) :=
  match lines with
  | [] => Ok ([], st)
  | exp :: lines =>
      if String.eqb exp "quit" then Ok ([], st)
      else
        let* exptree := parse_expression exp in
        let* (v, st) := evaluate fuel exptree environment st in
        let* (printed, st) := repl_loop fuel environment st lines in
        Ok (v :: printed, st)
  end.

Definition repl (fuel : nat) (lines : list string) : outcome (list value) :=
  let* (environment, st) := init_default_environment empty_store in
  let* (printed, _) := repl_loop fuel environment st lines in
  Ok printed.

(** ** Notions used in the statements *)

(** Every character of [s] is a word character. *)
Fixpoint all_word (s : string) : bool :=
  match s with
  | EmptyString => true
  | String c rest => is_word c && all_word rest
  end.

(** What a token looks like: a non-empty run of word characters, or one
    punctuation character. *)
Definition token_shape (t : string) : Prop :=
  (t <> EmptyString /\ all_word t = true)
  \/ (exists c, is_punct c = true /\ t = String c EmptyString).

(** The frames of an environment and of its ancestors, innermost first. *)
Fixpoint chain (self : Environment) : list nat :=
  match self with
  | mkEnvironment a parent =>
      a :: match parent with
           | Some p => chain p
           | None => []
           end
  end.

(** Every frame of the chain has been created. *)
Definition allocated (st : store) (self : Environment) : Prop :=
  Forall (fun a => (a < next_frame st)%nat) (chain self).

(** A default environment, and under it a scope that binds [x], as a call
    of a one-parameter procedure would create it. *)
Definition sample_scopes : Environment * Environment * store :=
  Eval vm_compute in
  match
    (let* (g, st) := init_default_environment empty_store in
     let* (c, st) := Environment_init st (EList [EStr "x"]) [VInt 1] (Some g) in
     Ok (g, c, st))
  with
  | Ok r => r
  | _ => (mkEnvironment 0 None, mkEnvironment 0 None, empty_store)
  end.

Definition sample_global : Environment := fst (fst sample_scopes).
Definition sample_child : Environment := snd (fst sample_scopes).
Definition sample_store : store := snd sample_scopes.

(** Truth as the specification words it: a value counts as true when it is
    equal neither to [false] nor to 0, equality being the [==] of the
    program. *)
Definition claimed_truthy (v : value) : bool :=
  match py_eq v (VBool false), py_eq v (VInt 0) with
  | Ok false, Ok false => true
  | _, _ => false
  end.

(** From [st] to [st'] no frame was lost, and the frames that existed in
    [st] are unchanged, except perhaps the frame of [environment]. *)
Definition untouched (environment : Environment) (st st' : store) : Prop :=
  (next_frame st <= next_frame st')%nat
  /\ forall a, (a < next_frame st)%nat -> a <> frame environment ->
               frame_at st' a = frame_at st a.

(** An evaluator that writes no frame but the one it is given, and new
    ones. *)
Definition frame_safe
    (ev : exptree -> Environment -> store -> outcome (value * store)) : Prop :=
  forall e environment st v st',
    ev e environment st = Ok (v, st') -> untouched environment st st'.

(** The head of a special form. *)
Definition special (head : exptree) : bool :=
  is_symbol head "def" || is_symbol head "define" || is_symbol head "if"
  || is_symbol head "fn" || is_symbol head "lambda".

(** Parameter names bound to argument values, pair by pair. *)
Definition bind_all (pairs : list (string * value)) (d : dict) : dict :=
  fold_left (fun d p => <[fst p := snd p]> d) pairs d.

(** The session that defines a procedure returning closures, takes one
    closure over [a = 3], and then binds [a] to 100 at top level. *)
Definition closure_session : Environment * store :=
  Eval vm_compute in
  match
    (let* (g, st) := init_default_environment empty_store in
     let* (_, st) :=
       repl_loop 10 g st
         ["(define mk (fn (a) (fn (b) (+ a b))))";
          "(define add3 (mk 3))";
          "(define a 100)"] in
     Ok (g, st))
  with
  | Ok r => r
  | _ => (mkEnvironment 0 None, empty_store)
  end.

Definition closure_global : Environment := fst closure_session.
Definition closure_store : store := snd closure_session.

(** The scope of the call [(mk 3)], which the closure [add3] captured, its
    body, and the scope and the store of the call [(add3 4)]. *)
Definition closure_captured : Environment := mkEnvironment 1 (Some closure_global).
Definition closure_body : exptree := EList [EStr "+"; EStr "a"; EStr "b"].
Definition closure_scope : Environment :=
  mkEnvironment (next_frame closure_store) (Some closure_captured).
Definition closure_call_store : store :=
  {| frames := <[next_frame closure_store := <["b" := VInt 4]> ∅]> (frames closure_store);
     next_frame := S (next_frame closure_store);
     next_procedure := next_procedure closure_store |}.

(** The store in which the body of [mk] is evaluated by the call [(mk 3)]
    of that session: [mk] is defined, and the frame of the call binds [a]
    to 3. *)
Definition closure_definition_store : store :=
  Eval vm_compute in
  match
    (let* (g, st) := init_default_environment empty_store in
     let* (_, st) := repl_loop 10 g st ["(define mk (fn (a) (fn (b) (+ a b))))"] in
     let* (_, st) := Environment_init st (EList [EStr "a"]) [VInt 3] (Some g) in
     Ok st)
  with
  | Ok r => r
  | _ => empty_store
  end.

(** An environment as the program makes them: its frame exists below the
    address [n], and the frame of each parent is older than the frame of its
    child. *)
Fixpoint env_wf (n : nat) (self : Environment) : Prop :=
  match self with
  | mkEnvironment a parent =>
      (a < n)%nat
      /\ match parent with
         | Some p => env_wf a p
         | None => True
         end
  end.

(** The environments captured inside a value are such environments. *)
Fixpoint value_wf (n : nat) (v : value) : Prop :=
  match v with
  | VProc _ _ _ environment => env_wf n environment
  | VList l =>
      (fix all (l : list value) : Prop :=
         match l with
         | [] => True
         | x :: l => value_wf n x /\ all l
         end) l
  | _ => True
  end.

(** Every value bound in a frame is well formed. *)
Definition store_wf (st : store) : Prop :=
  forall a x v, frame_at st a !! x = Some v -> value_wf (next_frame st) v.

(** An evaluator that keeps stores and values well formed. *)
Definition wf_safe
    (ev : exptree -> Environment -> store -> outcome (value * store)) : Prop :=
  forall e environment st v st',
    store_wf st -> env_wf (next_frame st) environment ->
    ev e environment st = Ok (v, st') ->
    store_wf st' /\ value_wf (next_frame st') v
    /\ (next_frame st <= next_frame st')%nat.

(** The bindings of the default environment. *)
Definition default_bindings : list (string * value) :=
  [("+", VPrim Padd); ("-", VPrim Psubtract); ("*", VPrim Pmultiply);
   ("/", VPrim Pdivide); ("first", VPrim Pfirst); ("rest", VPrim Prest);
   ("list", VPrim Pcreate_list); ("true", VBool true); ("false", VBool false);
   ("<", VPrim Pless_than); (">", VPrim Pgreater_than); ("=", VPrim Pequals)].

(** A character the tokenizer skips: neither a word character nor one of
    the punctuation characters. *)
Definition is_separator (c : ascii) : bool := negb (is_word c) && negb (is_punct c).

(** [r2] is the answer [r1], unless [r1] is only a lack of fuel. *)
Definition extends {A : Type} (r1 r2 : outcome A) : Prop :=
  r1 <> OutOfFuel -> r2 = r1.

(** The session that defines a procedure whose body defines [a], and binds
    [a] to 1 at top level. *)
Definition body_define_session : Environment * store :=
  Eval vm_compute in
  match
    (let* (g, st) := init_default_environment empty_store in
     let* (_, st) :=
       repl_loop 10 g st ["(define f (fn () (define a 5)))"; "(define a 1)"] in
     Ok (g, st))
  with
  | Ok r => r
  | _ => (mkEnvironment 0 None, empty_store)
  end.

(** * The reader on the sample inputs *)

(** C2: [parse_expression] is a function of its input, and on the three
    sample texts it returns the stated trees: [(+ 2 3)] gives the list of
    the symbol [+] and the integers 2 and 3; [5] gives the integer 5;
    [(first (list 1 (+ 2 3) 9))] gives the nested lists. *)
Theorem parse_expression_samples :
  (forall expression r1 r2,
      parse_expression expression = r1 -> parse_expression expression = r2 -> r1 = r2)
  /\ parse_expression "(+ 2 3)" = Ok (EList [EStr "+"; EInt 2; EInt 3])
  /\ parse_expression "5" = Ok (EInt 5)
  /\ parse_expression "(first (list 1 (+ 2 3) 9))"
     = Ok (EList [EStr "first";
                  EList [EStr "list"; EInt 1;
                         EList [EStr "+"; EInt 2; EInt 3]; EInt 9]]).
Proof.
  split; [intros expression r1 r2 <- <-; reflexivity|].
  repeat split; vm_compute; reflexivity.
Qed.

(** * The reader: fuel and trailing tokens *)

(** Each call of the reader pops at least one token. *)
Lemma parse_consumes (n : nat) :
  (forall tokens e r, parse_tokens n tokens = Ok (e, r) ->
                      (length r < length tokens)%nat)
  /\ (forall tokens lst e r, parse_list n tokens lst = Ok (e, r) ->
                             (length r < length tokens)%nat).
Proof.
  induction n as [|n [IHt IHl]]; [split; intros; discriminate|].
  split.
  - intros [|token tokens] e r; simpl; [discriminate|].
    destruct (String.eqb token "(").
    + intros H. apply IHl in H. lia.
    + intros [= <- <-]. lia.
  - intros [|token tokens] lst e r; simpl; [discriminate|].
    destruct (String.eqb token ")").
    + intros [= <- <-]. lia.
    + destruct (parse_tokens n (token :: tokens)) as [[e1 r1]| | |] eqn:H1;
        simpl; try discriminate.
      intros H2. apply IHt in H1. apply IHl in H2. simpl in H1. lia.
Qed.

(** More fuel does not change an answer. *)
Lemma parse_fuel_step (n : nat) :
  (forall tokens r, parse_tokens n tokens = r -> r <> OutOfFuel ->
                    parse_tokens (S n) tokens = r)
  /\ (forall tokens lst r, parse_list n tokens lst = r -> r <> OutOfFuel ->
                           parse_list (S n) tokens lst = r).
Proof.
  induction n as [|n [IHt IHl]]; [split; intros; subst; simpl in *; congruence|].
  split.
  - intros [|token tokens] r Hr Hne; [exact Hr|].
    change (parse_tokens (S (S n)) (token :: tokens))
      with (if String.eqb token "(" then parse_list (S n) tokens []
            else Ok (typed token, tokens)).
    simpl in Hr. destruct (String.eqb token "("); [|exact Hr].
    apply IHl; assumption.
  - intros [|token tokens] lst r Hr Hne; [exact Hr|].
    change (parse_list (S (S n)) (token :: tokens) lst)
      with (if String.eqb token ")" then Ok (EList lst, tokens)
            else let* (e, tokens') := parse_tokens (S n) (token :: tokens) in
                 parse_list (S n) tokens' (lst ++ [e])).
    simpl in Hr. destruct (String.eqb token ")"); [exact Hr|].
    destruct (parse_tokens n (token :: tokens)) as [[e1 r1]| | |] eqn:H1;
      simpl in Hr; try (subst r; congruence).
    + rewrite (IHt _ _ H1) by discriminate. simpl. apply IHl; assumption.
    + rewrite (IHt _ _ H1) by discriminate. exact Hr.
    + rewrite (IHt _ _ H1) by discriminate. exact Hr.
Qed.

Lemma parse_tokens_more (n m : nat) tokens r :
  parse_tokens n tokens = r -> r <> OutOfFuel -> (n <= m)%nat ->
  parse_tokens m tokens = r.
Proof.
  intros Hr Hne Hle. induction Hle as [|m Hle IH]; [exact Hr|].
  apply parse_fuel_step; assumption.
Qed.

(** [parse_fuel] is enough: the reader never runs out of it. *)
Lemma parse_enough (n : nat) :
  (forall tokens, (1 <= n)%nat -> (2 * length tokens <= n)%nat ->
                  parse_tokens n tokens <> OutOfFuel)
  /\ (forall tokens lst, (2 * length tokens + 1 <= n)%nat ->
                         parse_list n tokens lst <> OutOfFuel).
Proof.
  induction n as [|n [IHt IHl]]; [split; intros; lia|].
  split.
  - intros [|token tokens] H1 H2; simpl; [discriminate|].
    destruct (String.eqb token "("); [|discriminate].
    apply IHl. simpl in H2. lia.
  - intros [|token tokens] lst H; simpl; [discriminate|].
    destruct (String.eqb token ")"); [discriminate|].
    simpl in H.
    destruct (parse_tokens n (token :: tokens)) as [[e1 r1]| | |] eqn:H1;
      simpl; try discriminate.
    + apply IHl. apply (proj1 (parse_consumes n)) in H1. simpl in H1. lia.
    + exfalso. revert H1. apply IHt; simpl; lia.
Qed.

Lemma parse_tokens_enough tokens :
  parse_tokens (parse_fuel tokens) tokens <> OutOfFuel.
Proof. apply parse_enough; unfold parse_fuel; lia. Qed.

(** Tokens behind a complete expression are left where they are. *)
Lemma parse_trailing (n : nat) (extra : list string) :
  (forall tokens e r, parse_tokens n tokens = Ok (e, r) ->
                      parse_tokens n (tokens ++ extra) = Ok (e, r ++ extra))
  /\ (forall tokens lst e r, parse_list n tokens lst = Ok (e, r) ->
                             parse_list n (tokens ++ extra) lst = Ok (e, r ++ extra)).
Proof.
  induction n as [|n [IHt IHl]]; [split; intros; discriminate|].
  split.
  - intros [|token tokens] e r; simpl; [discriminate|].
    destruct (String.eqb token "(").
    + apply IHl.
    + intros [= <- <-]. reflexivity.
  - intros [|token tokens] lst e r; simpl; [discriminate|].
    destruct (String.eqb token ")").
    + intros [= <- <-]. reflexivity.
    + destruct (parse_tokens n (token :: tokens)) as [[e1 r1]| | |] eqn:H1;
        simpl; try discriminate.
      intros H2. apply IHt in H1. simpl in H1. rewrite H1. simpl.
      apply IHl. exact H2.
Qed.

Lemma all_word_append w c :
  all_word w = true -> is_word c = true ->
  all_word (String.append w (String c EmptyString)) = true.
Proof.
  induction w as [|d w IH]; simpl; intros Hw Hc.
  - rewrite Hc. reflexivity.
  - apply andb_prop in Hw as [Hd Hw]. rewrite Hd. simpl. apply IH; assumption.
Qed.

Lemma flush_shape word tokens :
  all_word word = true -> Forall token_shape tokens ->
  Forall token_shape (flush word tokens).
Proof.
  intros Hw Ht. destruct word as [|c w]; simpl; [exact Ht|].
  constructor; [|exact Ht]. left. split; [discriminate|exact Hw].
Qed.

Lemma scan_shape s : forall word,
  all_word word = true -> Forall token_shape (scan word s).
Proof.
  induction s as [|c s IH]; intros word Hw; simpl.
  - apply flush_shape; [exact Hw|constructor].
  - destruct (is_word c) eqn:Hc.
    + apply IH. apply all_word_append; assumption.
    + apply flush_shape; [exact Hw|].
      destruct (is_punct c) eqn:Hp.
      * constructor; [|apply IH; reflexivity].
        right. exists c. split; [exact Hp|reflexivity].
      * apply IH. reflexivity.
Qed.

Lemma tokenize_shape expression : Forall token_shape (tokenize expression).
Proof. apply scan_shape. reflexivity. Qed.

(** The reader always answers: it returns a tree or raises. *)
Lemma parse_expression_total expression :
  (exists tree, parse_expression expression = Ok tree)
  \/ (exists e, parse_expression expression = Raise e).
Proof.
  unfold parse_expression.
  assert (Hf := parse_tokens_enough (tokenize expression)).
  assert (Hh : forall n ts, parse_tokens n ts <> HostDefined
                            /\ forall lst, parse_list n ts lst <> HostDefined).
  { induction n as [|n IH]; [split; [|intros lst]; discriminate|].
    intros [|t ts]; (split; [|intros lst]); simpl; try discriminate.
    - destruct (String.eqb t "("); [apply IH|discriminate].
    - destruct (String.eqb t ")"); [discriminate|].
      destruct (parse_tokens n (t :: ts)) as [[e1 r1]| | |] eqn:H1;
        simpl; try discriminate; [apply IH|].
      exfalso. revert H1. apply IH. }
  destruct (parse_tokens _ _) as [[tree r]|e| |] eqn:H; simpl.
  - left. eexists. reflexivity.
  - right. eexists. reflexivity.
  - contradiction.
  - exfalso. revert H. apply Hh.
Qed.

(** C10: when the tokens of the text are a complete expression followed by
    more tokens, [parse_expression] returns the tree of that first
    expression and raises nothing; the tokens behind it are never read. *)
Theorem parse_expression_ignores_trailing
    (expression : string) (complete extra : list string)
    (fuel : nat) (tree : exptree) :
  tokenize expression = complete ++ extra ->
  parse_tokens fuel complete = Ok (tree, []) ->
  parse_expression expression = Ok tree.
Proof.
  intros Htok Hfirst.
  apply (proj1 (parse_trailing fuel extra)) in Hfirst. simpl in Hfirst.
  unfold parse_expression. rewrite Htok.
  set (tokens := complete ++ extra) in *.
  assert (Hbig := parse_tokens_enough tokens).
  destruct (Nat.le_ge_cases fuel (parse_fuel tokens)) as [Hle|Hle].
  - rewrite (parse_tokens_more _ _ _ _ Hfirst ltac:(discriminate) Hle).
    reflexivity.
  - rewrite (parse_tokens_more _ _ _ _ eq_refl Hbig Hle) in Hfirst.
    rewrite Hfirst. reflexivity.
Qed.

Lemma parse_expression_ignores_trailing_witness :
  parse_expression "1 2" = Ok (EInt 1)
  /\ parse_expression "-5" = Ok (EStr "-")
  /\ parse_expression "(+ 1 2) (list" = Ok (EList [EStr "+"; EInt 1; EInt 2]).
Proof.
  split; [|split].
  - apply (parse_expression_ignores_trailing "1 2" ["1"] ["2"] 1); reflexivity.
  - apply (parse_expression_ignores_trailing "-5" ["-"] ["5"] 1); reflexivity.
  - apply (parse_expression_ignores_trailing "(+ 1 2) (list"
             ["("; "+"; "1"; "2"; ")"] ["("; "list"] 5); reflexivity.
Defined.

(** C8, as the claim states it, fails on the text [)]: the reader returns
    the symbol [)] and raises nothing. *)
Lemma parse_close_paren_returns :
  parse_expression ")" = Ok (EStr ")")
  /\ (forall e, parse_expression ")" <> Raise e).
Proof. split; [reflexivity|intros e; discriminate]. Qed.

(** C8, amended: when the first token of the text is a close-paren,
    [parse_expression] raises nothing; it returns that token as a symbol,
    and reads no further. *)
Theorem parse_expression_leading_close_paren
    (expression : string) (tokens : list string) :
  tokenize expression = ")" :: tokens ->
  parse_expression expression = Ok (EStr ")").
Proof.
  intros Htok. unfold parse_expression. rewrite Htok. reflexivity.
Qed.

Lemma parse_expression_leading_close_paren_witness :
  parse_expression ") (+ 1 2)" = Ok (EStr ")").
Proof.
  apply (parse_expression_leading_close_paren ") (+ 1 2)"
           ["("; "+"; "1"; "2"; ")"]).
  reflexivity.
Defined.

(** * Evaluation of the sample programs *)

(** C1: in a new default environment, and with any recursion budget of
    four calls or more, [(+ 1 2 3)] evaluates to the integer 6,
    [(list 1 2 3)] to the list of 1, 2 and 3, and
    [(first (list 1 (+ 2 3) 9))] to the integer 1. *)
Theorem evaluate_samples (fuel : nat) :
  run (4 + fuel) "(+ 1 2 3)" = Ok (VInt 6)
  /\ run (4 + fuel) "(list 1 2 3)" = Ok (VList [VInt 1; VInt 2; VInt 3])
  /\ run (4 + fuel) "(first (list 1 (+ 2 3) 9))" = Ok (VInt 1).
Proof. repeat split; vm_compute; reflexivity. Qed.

(** * Environments *)

(** Induction along the parents of an environment. *)
Lemma Environment_chain_ind (P : Environment -> Prop) :
  (forall a, P (mkEnvironment a None)) ->
  (forall a p, P p -> P (mkEnvironment a (Some p))) ->
  forall self, P self.
Proof.
  intros Hroot Hchild.
  fix IH 1. intros [a [p|]].
  - apply Hchild. apply IH.
  - apply Hroot.
Qed.

Lemma lookup_unfold st a parent var_name :
  lookup st (mkEnvironment a parent) var_name
  = match frame_at st a !! var_name with
    | Some v => Ok v
    | None =>
        match parent with
        | Some p => lookup st p var_name
        | None => Raise (NotDefined var_name)
        end
    end.
Proof. reflexivity. Qed.

(** [lookup] reads nothing but the frames of the chain. *)
Lemma lookup_ext st st' self var_name :
  (forall a, a ∈ chain self -> frame_at st' a = frame_at st a) ->
  lookup st' self var_name = lookup st self var_name.
Proof.
  induction self as [a|a p IH] using Environment_chain_ind; intros H.
  - rewrite !lookup_unfold, (H a) by (simpl; left). reflexivity.
  - rewrite !lookup_unfold, (H a) by (simpl; left).
    rewrite IH; [reflexivity|]. intros b Hb. apply H. simpl. right. exact Hb.
Qed.

(** [lookup] returns a value or raises [NotDefined]; it has no third
    answer. *)
Lemma lookup_answers st self var_name :
  (exists v, lookup st self var_name = Ok v)
  \/ lookup st self var_name = Raise (NotDefined var_name).
Proof.
  induction self as [a|a p IH] using Environment_chain_ind;
    rewrite lookup_unfold; destruct (frame_at st a !! var_name) as [v|];
    eauto.
Qed.

(** A value that [lookup] returns is bound in a frame of the chain. *)
Lemma lookup_bound st self var_name v :
  lookup st self var_name = Ok v ->
  exists a, a ∈ chain self /\ frame_at st a !! var_name = Some v.
Proof.
  induction self as [a|a p IH] using Environment_chain_ind;
    rewrite lookup_unfold; destruct (frame_at st a !! var_name) as [w|] eqn:Hw.
  - intros [= <-]. exists a. split; [simpl; left|exact Hw].
  - discriminate.
  - intros [= <-]. exists a. split; [simpl; left|exact Hw].
  - intros H. destruct (IH H) as (b & Hb & Hv).
    exists b. split; [simpl; right; exact Hb|exact Hv].
Qed.

(** C6: when no frame of the chain binds the name, [lookup] walks from the
    local frame through every parent and raises the not-defined exception
    at the root; it returns no value. *)
Theorem lookup_undefined (st : store) (self : Environment) (var_name : string) :
  (forall a, a ∈ chain self -> frame_at st a !! var_name = None) ->
  lookup st self var_name = Raise (NotDefined var_name).
Proof.
  induction self as [a|a p IH] using Environment_chain_ind; intros H;
    rewrite lookup_unfold, (H a) by (simpl; left).
  - reflexivity.
  - apply IH. intros b Hb. apply H. simpl. right. exact Hb.
Qed.

Lemma lookup_undefined_witness :
  lookup sample_store sample_child "y" = Raise (NotDefined "y").
Proof.
  apply (lookup_undefined sample_store sample_child "y").
  intros a Ha. apply list_elem_of_In in Ha. vm_compute in Ha.
  destruct Ha as [<-|[<-|[]]]; vm_compute; reflexivity.
Defined.

(** A frame is written only through [set_var]; the other frames keep their
    contents. *)
Lemma set_var_frames st self var v st' :
  set_var st self var v = Ok st' ->
  next_frame st' = next_frame st
  /\ next_procedure st' = next_procedure st
  /\ forall a, a <> frame self -> frame_at st' a = frame_at st a.
Proof.
  unfold set_var. destruct (setitem _ var v) as [d| | |]; simpl; try discriminate.
  intros [= <-]. simpl. repeat split.
  intros a Ha. unfold frame_at. simpl.
  rewrite lookup_insert_ne by congruence. reflexivity.
Qed.

Lemma set_var_str st self x v :
  set_var st self (EStr x) v
  = Ok {| frames := <[frame self := <[x := v]> (frame_at st (frame self))]> (frames st);
          next_frame := next_frame st;
          next_procedure := next_procedure st |}.
Proof. reflexivity. Qed.

(** The frame of a new environment is not a frame of its parent. *)
Lemma Environment_init_fresh st var_names values parent child st' :
  allocated st parent ->
  Environment_init st var_names values (Some parent) = Ok (child, st') ->
  (frame child ∉ chain parent) /\ allocated st' child
  /\ parent_environment child = Some parent.
Proof.
  intros Hp. unfold Environment_init.
  destruct (iterate var_names) as [names| | |]; simpl; try discriminate.
  destruct (dict_of _ _) as [d| | |]; simpl; try discriminate.
  intros [= <- <-]. simpl. unfold allocated in *. simpl. repeat split.
  - intros Hin. rewrite Forall_forall in Hp. apply Hp in Hin. lia.
  - constructor; [lia|]. eapply Forall_impl; [exact Hp|]. simpl. intros; lia.
Qed.

(** * Unsupported expressions *)

(** C9, as the claim states it, fails on the text [()]: evaluating the empty
    list raises [IndexError], not [UnsupportedExpression]. *)
Lemma evaluate_empty_list_counterexample :
  parse_expression "()" = Ok (EList [])
  /\ run 1 "()" = Raise IndexError
  /\ run 1 "()" <> Raise UnsupportedExpression.
Proof. split; [|split]; vm_compute; [reflexivity|reflexivity|discriminate]. Qed.

(** C9, amended: evaluating the empty list fails in every environment and
    every store, with the [IndexError] of [exptree[0]]. *)
Theorem evaluate_empty_list (fuel : nat) (environment : Environment) (st : store) :
  evaluate (S fuel) (EList []) environment st = Raise IndexError.
Proof. reflexivity. Qed.

(** * Division *)






(** * The conditional *)

(** C4, as the claim states it, fails on [(if (list) 1 2)]: the predicate
    evaluates to the empty list, which is equal neither to [false] nor to 0,
    yet the fourth element is the one evaluated.  The value of a definition
    behaves the same way. *)
Lemma if_empty_list_counterexample :
  run 2 "(list)" = Ok (VList [])
  /\ claimed_truthy (VList []) = true
  /\ equals [VList []; VBool false] = Ok (VBool false)
  /\ equals [VList []; VInt 0] = Ok (VBool false)
  /\ run 3 "(if (list) 1 2)" = Ok (VInt 2)
  /\ claimed_truthy VNone = true
  /\ run 3 "(if (define y 1) 1 2)" = Ok (VInt 2).
Proof. repeat split; vm_compute; reflexivity. Qed.

(** The values that [if] takes for false. *)
Lemma truth_false (v : value) :
  truth v = false
  <-> v = VNone \/ v = VBool false \/ v = VInt 0
      \/ (exists s, v = VFloat (S754_zero s)) \/ v = VList [].
Proof.
  split.
  - destruct v as [|[|]|z|f|[|x l]|p|i ps b e]; simpl; try discriminate; auto.
    + destruct (Z.eqb_spec z 0) as [->|]; [auto|discriminate].
    + destruct f; simpl; try discriminate. intros _. do 3 right. left. eauto.
  - intros [->|[->|[->|[ [s ->] | -> ] ] ] ]; reflexivity.
Qed.

(** C4, amended: a list whose first element is [if], followed by a
    predicate and two branches, evaluates the predicate, then evaluates and
    returns the third element when the value is true for the host language
    ([truth]: everything but [None], [false], a zero of either numeric type
    and the empty list) and the fourth otherwise.  The branch not taken is
    not evaluated: the result is the same whatever stands in its place. *)
Theorem evaluate_if (fuel : nat) (predicate true_clause false_clause : exptree)
    (more : list exptree) (environment : Environment) (st : store) :
  evaluate (S fuel)
    (EList (EStr "if" :: predicate :: true_clause :: false_clause :: more))
    environment st
  = (let* (p, st1) := evaluate fuel predicate environment st in
     if truth p then evaluate fuel true_clause environment st1
     else evaluate fuel false_clause environment st1)
  /\ (forall p st1 other,
        evaluate fuel predicate environment st = Ok (p, st1) ->
        truth p = true ->
        evaluate (S fuel)
          (EList (EStr "if" :: predicate :: true_clause :: other :: more))
          environment st
        = evaluate fuel true_clause environment st1)
  /\ (forall p st1 other,
        evaluate fuel predicate environment st = Ok (p, st1) ->
        truth p = false ->
        evaluate (S fuel)
          (EList (EStr "if" :: predicate :: other :: false_clause :: more))
          environment st
        = evaluate fuel false_clause environment st1)
  /\ (forall v, truth v = false
                <-> v = VNone \/ v = VBool false \/ v = VInt 0
                    \/ (exists s, v = VFloat (S754_zero s)) \/ v = VList []).
Proof.
  split; [reflexivity|]. split; [|split; [|apply truth_false]].
  - intros p st1 other Hp Ht.
    change (evaluate (S fuel) _ environment st)
      with (let* (p, st1) := evaluate fuel predicate environment st in
            if truth p then evaluate fuel true_clause environment st1
            else evaluate fuel other environment st1).
    rewrite Hp. simpl. rewrite Ht. reflexivity.
  - intros p st1 other Hp Ht.
    change (evaluate (S fuel) _ environment st)
      with (let* (p, st1) := evaluate fuel predicate environment st in
            if truth p then evaluate fuel other environment st1
            else evaluate fuel false_clause environment st1).
    rewrite Hp. simpl. rewrite Ht. reflexivity.
Qed.

(** The branch not taken may hold an undefined name: it is never looked
    up. *)
Example if_skips_untaken_branch (fuel : nat) :
  run (3 + fuel) "(if 0 nosuch 7)" = Ok (VInt 7)
  /\ run (3 + fuel) "(if 1 7 nosuch)" = Ok (VInt 7)
  /\ run (3 + fuel) "nosuch" = Raise (NotDefined "nosuch").
Proof. repeat split; vm_compute; reflexivity. Qed.

(** * Which frames an evaluation writes *)

Lemma bind_Ok {A B : Type} (m : outcome A) (k : A -> outcome B) (b : B) :
  bind m k = Ok b -> exists a, m = Ok a /\ k a = Ok b.
Proof. destruct m as [a| | |]; simpl; try discriminate. eauto. Qed.

Lemma untouched_refl environment st : untouched environment st st.
Proof. split; [lia|reflexivity]. Qed.

Lemma untouched_trans environment st st1 st2 :
  untouched environment st st1 -> untouched environment st1 st2 ->
  untouched environment st st2.
Proof.
  intros [Hn1 Hf1] [Hn2 Hf2]. split; [lia|].
  intros a Ha Hne. rewrite Hf2 by (try lia; exact Hne). apply Hf1; assumption.
Qed.

Lemma set_var_untouched st environment var v st' :
  set_var st environment var v = Ok st' -> untouched environment st st'.
Proof.
  intros H. destruct (set_var_frames _ _ _ _ _ H) as (Hn & _ & Hf).
  split; [lia|]. intros a _ Hne. apply Hf. exact Hne.
Qed.

Lemma evaluate_each_untouched ev :
  frame_safe ev ->
  forall args environment st vs st',
    evaluate_each ev args environment st = Ok (vs, st') ->
    untouched environment st st'.
Proof.
  intros Hev. induction args as [|a args IH]; intros environment st vs st'; simpl.
  - intros [= <- <-]. apply untouched_refl.
  - intros H. apply bind_Ok in H as ([v st1] & H1 & H).
    apply bind_Ok in H as ([vs' st2] & H2 & H). injection H as <- <-.
    eapply untouched_trans; [eapply Hev; exact H1|eapply IH; exact H2].
Qed.

(** What [Environment.__init__] does to the store: one new frame, at the
    next address, and nothing else. *)
Lemma Environment_init_store st var_names values parent scope st' :
  Environment_init st var_names values parent = Ok (scope, st') ->
  scope = mkEnvironment (next_frame st) parent
  /\ next_frame st' = S (next_frame st)
  /\ next_procedure st' = next_procedure st
  /\ (forall a, a <> next_frame st -> frame_at st' a = frame_at st a)
  /\ exists names, iterate var_names = Ok names
                   /\ dict_of (combine names values) ∅ = Ok (frame_at st' (next_frame st)).
Proof.
  unfold Environment_init. intros H.
  apply bind_Ok in H as (names & Hnames & H).
  apply bind_Ok in H as (d & Hd & H). injection H as <- <-. simpl.
  repeat split.
  - intros a Ha. unfold frame_at. simpl. rewrite lookup_insert_ne by congruence.
    reflexivity.
  - exists names. split; [exact Hnames|]. unfold frame_at. simpl.
    rewrite lookup_insert_eq. exact Hd.
Qed.

(** A call writes no frame that existed before it: a procedure body runs in
    a frame of its own. *)
Lemma call_untouched ev :
  frame_safe ev ->
  forall func args st v st',
    call ev func args st = Ok (v, st') ->
    (next_frame st <= next_frame st')%nat
    /\ forall a, (a < next_frame st)%nat -> frame_at st' a = frame_at st a.
Proof.
  intros Hev func args st v st'.
  destruct func as [| | | | |p|ident parameters expression captured];
    simpl; try discriminate.
  - intros H. apply bind_Ok in H as (w & _ & H). injection H as <- <-.
    split; [lia|reflexivity].
  - unfold Procedure_call. intros H.
    apply bind_Ok in H as ([scope st1] & Hinit & H).
    apply Environment_init_store in Hinit as (-> & Hn & _ & Hf & _).
    apply Hev in H as [Hn' Hf']. simpl in Hf'.
    split; [lia|]. intros a Ha.
    rewrite Hf' by lia. apply Hf. lia.
Qed.

Lemma evaluate_list_unfold fuel head tail environment st :
  evaluate (S fuel) (EList (head :: tail)) environment st
  = if is_symbol head "def" || is_symbol head "define" then
      let* var := item (head :: tail) 1 in
      let* e := item (head :: tail) 2 in
      let* (val, st) := evaluate fuel e environment st in
      let* st := set_var st environment var val in
      Ok (VNone, st)
    else if is_symbol head "if" then
      let* predicate := item (head :: tail) 1 in
      let* true_clause := item (head :: tail) 2 in
      let* false_clause := item (head :: tail) 3 in
      let* (p, st) := evaluate fuel predicate environment st in
      if truth p then evaluate fuel true_clause environment st
      else evaluate fuel false_clause environment st
    else if is_symbol head "fn" || is_symbol head "lambda" then
      let* params := item (head :: tail) 1 in
      let* expression := item (head :: tail) 2 in
      Ok (Procedure_init st params expression environment)
    else
      let* (func, st) := evaluate fuel head environment st in
      let* (args, st) := evaluate_each (evaluate fuel) tail environment st in
      call (evaluate fuel) func args st.
Proof. reflexivity. Qed.

(** [evaluate] in an environment writes the frame of that environment and
    the frames it creates, and no other. *)
Lemma evaluate_frame_safe (fuel : nat) : frame_safe (evaluate fuel).
Proof.
  induction fuel as [|fuel IH]; intros e environment st v st'; [discriminate|].
  destruct e as [z|f|s|[|head tail]].
  - simpl. destruct (is_int z); [|discriminate].
    intros [= <- <-]. apply untouched_refl.
  - simpl. intros [= <- <-]. apply untouched_refl.
  - simpl. intros H. apply bind_Ok in H as (w & _ & H). injection H as <- <-.
    apply untouched_refl.
  - discriminate.
  - rewrite evaluate_list_unfold.
    destruct (is_symbol head "def" || is_symbol head "define").
    { intros H. apply bind_Ok in H as (var & _ & H).
      apply bind_Ok in H as (e & _ & H).
      apply bind_Ok in H as ([val st1] & H1 & H).
      apply bind_Ok in H as (st2 & H2 & H). injection H as <- <-.
      eapply untouched_trans; [eapply IH; exact H1|].
      eapply set_var_untouched; exact H2. }
    destruct (is_symbol head "if").
    { intros H. apply bind_Ok in H as (predicate & _ & H).
      apply bind_Ok in H as (true_clause & _ & H).
      apply bind_Ok in H as (false_clause & _ & H).
      apply bind_Ok in H as ([p st1] & H1 & H).
      eapply untouched_trans; [eapply IH; exact H1|].
      destruct (truth p); eapply IH; exact H. }
    destruct (is_symbol head "fn" || is_symbol head "lambda").
    { intros H. apply bind_Ok in H as (params & _ & H).
      apply bind_Ok in H as (expression & _ & H).
      injection H as <- <-. split; [simpl; lia|reflexivity]. }
    intros H. apply bind_Ok in H as ([func st1] & H1 & H).
    apply bind_Ok in H as ([args st2] & H2 & H).
    eapply untouched_trans; [eapply IH; exact H1|].
    eapply untouched_trans; [eapply evaluate_each_untouched; [exact IH|exact H2]|].
    apply (call_untouched _ IH) in H as [Hn Hf].
    split; [exact Hn|]. intros a Ha _. apply Hf. exact Ha.
Qed.

(** * Definitions are local *)

(** C5: [set_var] on an environment writes the binding into that
    environment's own frame and into no other frame, whether or not an
    ancestor binds the name.  Hence, when the frame of [child] is not one of
    the frames of [ancestor] (an environment never shares its frame with an
    ancestor), every [lookup] from [ancestor] answers after the definition
    what it answered before, also for the name just defined, while a
    [lookup] of that name from [child] finds the new value.  [define] and
    [def] in [evaluate] are this [set_var] on the current environment, and
    no expression at all, evaluated in [child], changes what a [lookup] from
    [ancestor] answers. *)
Theorem define_is_local (st : store) (child ancestor : Environment)
    (x : string) (v : value) :
  frame child ∉ chain ancestor ->
  exists st',
    set_var st child (EStr x) v = Ok st'
    /\ lookup st' child x = Ok v
    /\ (forall a, a <> frame child -> frame_at st' a = frame_at st a)
    /\ (forall y, lookup st' ancestor y = lookup st ancestor y)
    /\ (forall fuel e,
          evaluate (S fuel) (EList [EStr "define"; EStr x; e]) child st
          = let* (val, st1) := evaluate fuel e child st in
            let* st2 := set_var st1 child (EStr x) val in
            Ok (VNone, st2))
    /\ (forall fuel e,
          evaluate (S fuel) (EList [EStr "def"; EStr x; e]) child st
          = let* (val, st1) := evaluate fuel e child st in
            let* st2 := set_var st1 child (EStr x) val in
            Ok (VNone, st2))
    /\ (forall fuel e w st2,
          allocated st ancestor ->
          evaluate fuel e child st = Ok (w, st2) ->
          forall y, lookup st2 ancestor y = lookup st ancestor y).
Proof.
  intros Hfresh. eexists. split; [apply set_var_str|].
  destruct (set_var_frames _ _ _ _ _ (set_var_str st child x v)) as (_ & _ & Hother).
  split; [|split; [exact Hother|split; [|split; [|split]]]]; try reflexivity.
  - destruct child as [a p]. rewrite lookup_unfold. unfold frame_at. simpl.
    rewrite lookup_insert_eq. simpl. rewrite lookup_insert_eq. reflexivity.
  - intros y. apply lookup_ext. intros a Ha. apply Hother.
    intros ->. contradiction.
  - intros fuel e w st2 Halloc Heval y.
    apply evaluate_frame_safe in Heval as [_ Hf].
    apply lookup_ext. intros a Ha. apply Hf.
    + unfold allocated in Halloc. rewrite Forall_forall in Halloc.
      apply Halloc. exact Ha.
    + intros ->. contradiction.
Qed.

Lemma define_is_local_witness :
  exists st',
    set_var sample_store sample_child (EStr "+") (VInt 5) = Ok st'
    /\ lookup st' sample_child "+" = Ok (VInt 5)
    /\ lookup st' sample_global "+" = Ok (VPrim Padd).
Proof.
  assert (Hfresh : frame sample_child ∉ chain sample_global).
  { intros Hin. apply list_elem_of_In in Hin. vm_compute in Hin.
    destruct Hin as [Hin|[]]. discriminate. }
  destruct (define_is_local sample_store sample_child sample_global "+" (VInt 5) Hfresh)
    as (st' & Hset & Hchild & _ & Hparent & _).
  exists st'. split; [exact Hset|]. split; [exact Hchild|].
  rewrite Hparent. vm_compute. reflexivity.
Defined.

(** * Closures *)

Lemma dict_of_names (xs : list string) : forall (vs : list value) (d : dict),
  dict_of (combine (map EStr xs) vs) d = Ok (bind_all (combine xs vs) d).
Proof.
  induction xs as [|x xs IH]; intros [|v vs] d; try reflexivity.
  simpl. apply IH.
Qed.

Lemma bind_all_other (pairs : list (string * value)) : forall (d : dict) x,
  x ∉ map fst pairs -> bind_all pairs d !! x = d !! x.
Proof.
  induction pairs as [|[y v] pairs IH]; intros d x Hx; [reflexivity|].
  simpl in *. apply not_elem_of_cons in Hx as [Hne Hx].
  unfold bind_all in *. simpl. rewrite IH by exact Hx.
  apply lookup_insert_ne. congruence.
Qed.

(** With distinct names, each name is bound to the argument at its
    position. *)
Lemma bind_all_lookup (xs : list string) : forall (vs : list value) (d : dict) i x v,
  NoDup xs -> xs !! i = Some x -> vs !! i = Some v ->
  bind_all (combine xs vs) d !! x = Some v.
Proof.
  induction xs as [|y xs IH]; intros [|w vs] d i x v Hnd Hx Hv;
    try (destruct i; discriminate).
  apply NoDup_cons in Hnd as [Hy Hnd].
  destruct i as [|i]; simpl in Hx, Hv.
  - injection Hx as ->. injection Hv as ->. unfold bind_all. simpl.
    change (fold_left _ ?p ?d) with (bind_all p d).
    rewrite bind_all_other; [apply lookup_insert_eq|].
    intros Hin. apply Hy. apply list_elem_of_fmap in Hin as ([a b] & -> & Hin).
    apply list_elem_of_In, in_combine_l, list_elem_of_In in Hin. exact Hin.
  - unfold bind_all. simpl. eapply (IH vs _ i); eassumption.
Qed.

Lemma is_symbol_true head name : is_symbol head name = true -> head = EStr name.
Proof.
  destruct head as [z|f|s|l]; simpl; try discriminate.
  intros H. apply String.eqb_eq in H. subst. reflexivity.
Qed.

(** C3: scoping is lexical.  A procedure made by [fn] or [lambda] in an
    environment captures that environment, and making it writes no frame.
    Wherever the procedure is called later, from whatever environment, the
    call creates one new frame, holding the dictionary of the parameter
    names zipped with the argument values, in a new environment whose
    parent is the defining environment; the caller's environment is not
    part of it.  The call returns what the body evaluates to there.  A name
    of the body that the new frame does not bind is therefore looked up in
    the defining environment, whoever calls. *)
Theorem closure_call_is_lexical
    (n fuel : nat) (kw parameters expression : exptree) (more : list exptree)
    (defining : Environment) (s s' : store) (func : value)
    (head : exptree) (tail : list exptree) (caller : Environment)
    (st st1 st2 : store) (args : list value)
    (names : list exptree) (d : dict) :
  is_symbol kw "fn" || is_symbol kw "lambda" = true ->
  evaluate (S n) (EList (kw :: parameters :: expression :: more)) defining s
    = Ok (func, s') ->
  special head = false ->
  evaluate fuel head caller st = Ok (func, st1) ->
  evaluate_each (evaluate fuel) tail caller st1 = Ok (args, st2) ->
  iterate parameters = Ok names ->
  dict_of (combine names args) ∅ = Ok d ->
  let scope := mkEnvironment (next_frame st2) (Some defining) in
  let st3 := {| frames := <[next_frame st2 := d]> (frames st2);
                next_frame := S (next_frame st2);
                next_procedure := next_procedure st2 |} in
  func = VProc (next_procedure s) parameters expression defining
  /\ frames s' = frames s /\ next_frame s' = next_frame s
  /\ evaluate (S fuel) (EList (head :: tail)) caller st
     = evaluate fuel expression scope st3
  /\ parent_environment scope = Some defining
  /\ frame_at st3 (frame scope) = d
  /\ (forall a, a <> frame scope -> frame_at st3 a = frame_at st2 a)
  /\ (forall xs, parameters = EList (map EStr xs) ->
                 d = bind_all (combine xs args) ∅)
  /\ (forall x m, d !! x = None ->
                  evaluate (S m) (EStr x) scope st3
                  = let* v := lookup st3 defining x in Ok (v, st3))
  /\ (allocated st2 defining ->
      forall x, d !! x = None -> lookup st3 scope x = lookup st2 defining x).
Proof.
  intros Hkw Hmade Hspecial Hhead Hargs Hnames Hd scope st3.
  assert (Hfunc : func = VProc (next_procedure s) parameters expression defining
                  /\ frames s' = frames s /\ next_frame s' = next_frame s).
  { rewrite evaluate_list_unfold in Hmade.
    assert (Hdefine : is_symbol kw "def" || is_symbol kw "define" = false).
    { apply orb_prop in Hkw as [H|H]; apply is_symbol_true in H; subst; reflexivity. }
    assert (Hif : is_symbol kw "if" = false).
    { apply orb_prop in Hkw as [H|H]; apply is_symbol_true in H; subst; reflexivity. }
    rewrite Hdefine, Hif, Hkw in Hmade. simpl in Hmade.
    injection Hmade as <- <-. repeat split. }
  destruct Hfunc as (-> & Hframes & Hnext).
  assert (Hframe : frame_at st3 (frame scope) = d).
  { unfold frame_at, st3, scope. simpl. rewrite lookup_insert_eq. reflexivity. }
  assert (Hother : forall a, a <> frame scope -> frame_at st3 a = frame_at st2 a).
  { intros a Ha. unfold frame_at, st3. simpl.
    rewrite lookup_insert_ne by (simpl in Ha; congruence). reflexivity. }
  assert (Hlocal : forall x, d !! x = None ->
                             lookup st3 scope x = lookup st3 defining x).
  { intros x Hx. unfold scope at 1. rewrite lookup_unfold.
    change (next_frame st2) with (frame scope). rewrite Hframe, Hx. reflexivity. }
  split; [reflexivity|]. split; [exact Hframes|]. split; [exact Hnext|].
  split; [|split; [reflexivity|split; [exact Hframe|split; [exact Hother|]]]].
  - rewrite evaluate_list_unfold. unfold special in Hspecial.
    repeat (apply orb_false_elim in Hspecial as [Hspecial ?]).
    repeat match goal with H : is_symbol head _ = false |- _ => rewrite H end.
    simpl. rewrite Hhead. simpl. rewrite Hargs. simpl.
    unfold Procedure_call, Environment_init. rewrite Hnames. simpl.
    rewrite Hd. reflexivity.
  - split; [|split].
    + intros xs ->. simpl in Hnames. injection Hnames as <-.
      rewrite dict_of_names in Hd. injection Hd as <-. reflexivity.
    + intros x m Hx.
      change (evaluate (S m) (EStr x) scope st3)
        with (let* v := lookup st3 scope x in Ok (v, st3)).
      rewrite (Hlocal x Hx). reflexivity.
    + intros Halloc x Hx. rewrite (Hlocal x Hx). apply lookup_ext.
      intros a Ha. apply Hother. simpl.
      unfold allocated in Halloc. rewrite Forall_forall in Halloc.
      apply Halloc in Ha. lia.
Qed.

Lemma closure_call_is_lexical_witness :
  lookup closure_store closure_global "a" = Ok (VInt 100)
  /\ lookup closure_call_store closure_captured "a" = Ok (VInt 3)
  /\ lookup closure_store closure_global "add3"
     = Ok (VProc (next_procedure closure_definition_store)
             (EList [EStr "b"]) closure_body closure_captured)
  /\ evaluate 4 (EList [EStr "add3"; EInt 4]) closure_global closure_store
     = evaluate 3 closure_body closure_scope closure_call_store
  /\ evaluate 1 (EStr "a") closure_scope closure_call_store
     = Ok (VInt 3, closure_call_store).
Proof.
  assert (Hkw : is_symbol (EStr "fn") "fn" || is_symbol (EStr "fn") "lambda" = true)
    by reflexivity.
  assert (Hmade : evaluate 1 (EList [EStr "fn"; EList [EStr "b"]; closure_body])
                    closure_captured closure_definition_store
                  = Ok (VProc 1 (EList [EStr "b"]) closure_body closure_captured,
                        snd (Procedure_init closure_definition_store
                               (EList [EStr "b"]) closure_body closure_captured)))
    by reflexivity.
  assert (Hspecial : special (EStr "add3") = false) by reflexivity.
  assert (Hhead : evaluate 3 (EStr "add3") closure_global closure_store
                  = Ok (VProc 1 (EList [EStr "b"]) closure_body closure_captured,
                        closure_store))
    by (vm_compute; reflexivity).
  assert (Hargs : evaluate_each (evaluate 3) [EInt 4] closure_global closure_store
                  = Ok ([VInt 4], closure_store))
    by (vm_compute; reflexivity).
  assert (Hnames : iterate (EList [EStr "b"]) = Ok [EStr "b"]) by reflexivity.
  assert (Hd : dict_of (combine [EStr "b"] [VInt 4]) ∅ = Ok (<["b" := VInt 4]> ∅))
    by (vm_compute; reflexivity).
  destruct (closure_call_is_lexical 0 3 (EStr "fn") (EList [EStr "b"]) closure_body []
              closure_captured closure_definition_store _ _
              (EStr "add3") [EInt 4]
              closure_global closure_store closure_store closure_store
              [VInt 4] [EStr "b"] (<["b" := VInt 4]> ∅)
              Hkw Hmade Hspecial Hhead Hargs Hnames Hd)
    as (Hfunc & _ & _ & Hcall & _ & _ & _ & _ & Hfree & _).
  split; [vm_compute; reflexivity|].
  split; [vm_compute; reflexivity|].
  split.
  { rewrite <- Hfunc. vm_compute. reflexivity. }
  split; [exact Hcall|].
  refine (eq_trans (Hfree "a" 0%nat _) _); vm_compute; reflexivity.
Defined.

(** * Stores that a session can reach *)

Lemma env_wf_mono n m self : (n <= m)%nat -> env_wf n self -> env_wf m self.
Proof. destruct self as [a p]. simpl. intros Hle [Ha Hp]. split; [lia|exact Hp]. Qed.

Lemma value_wf_list n l : value_wf n (VList l) <-> Forall (value_wf n) l.
Proof.
  induction l as [|x l IH]; simpl.
  - split; [constructor|trivial].
  - split.
    + intros [Hx Hl]. constructor; [exact Hx|apply IH; exact Hl].
    + intros H. inversion H as [|? ? Hx Hl]; subst.
      split; [exact Hx|apply IH; exact Hl].
Qed.

Lemma value_wf_mono n m : (n <= m)%nat -> forall v, value_wf n v -> value_wf m v.
Proof.
  intros Hle. fix IH 1. intros [| | | |l| |ident ps b e]; try (intros; exact I).
  - intros H. apply value_wf_list. apply value_wf_list in H.
    induction l as [|x l IHl]; [constructor|].
    inversion H as [|? ? Hx Hl]; subst.
    constructor; [apply IH; exact Hx|apply IHl; exact Hl].
  - simpl. apply env_wf_mono. exact Hle.
Qed.

(** In a well-formed environment no frame occurs twice, and all exist. *)
Lemma env_wf_chain n self : env_wf n self -> Forall (fun a => (a < n)%nat) (chain self).
Proof.
  revert n. induction self as [a|a p IH] using Environment_chain_ind;
    intros n [Ha Hp]; simpl.
  - repeat constructor. exact Ha.
  - constructor; [exact Ha|]. eapply Forall_impl; [apply IH; exact Hp|].
    simpl. intros; lia.
Qed.

Lemma env_wf_allocated st self : env_wf (next_frame st) self -> allocated st self.
Proof. apply env_wf_chain. Qed.

Lemma env_wf_parent_fresh n a parent :
  env_wf n (mkEnvironment a (Some parent)) -> a ∉ chain parent.
Proof.
  intros [_ Hp] Hin. apply env_wf_chain in Hp.
  rewrite Forall_forall in Hp. apply Hp in Hin. lia.
Qed.

Lemma arithmetic_number iop fop x y r :
  arithmetic iop fop x y = Ok r -> (exists z, r = VInt z) \/ (exists f, r = VFloat f).
Proof.
  unfold arithmetic.
  destruct (as_number x) as [[a|a]|], (as_number y) as [[b|b]|];
    try discriminate; intros H.
  all: repeat (apply bind_Ok in H as (? & _ & H)); injection H as <-; eauto.
Qed.

Lemma arithmetic_wf n iop fop x y r : arithmetic iop fop x y = Ok r -> value_wf n r.
Proof.
  intros H. apply arithmetic_number in H as [[z ->]|[f ->]]; exact I.
Qed.

Lemma repeat_list_wf n l k r :
  Forall (value_wf n) l -> repeat_list l k = Ok r -> value_wf n r.
Proof.
  intros Hl. unfold repeat_list.
  destruct (_ || _); [discriminate|]. destruct (_ <? _); [discriminate|].
  intros [= <-]. apply value_wf_list.
  induction (Z.to_nat k) as [|m IH]; simpl; [constructor|].
  apply Forall_app. split; assumption.
Qed.

Lemma py_add_wf n x y r :
  value_wf n x -> value_wf n y -> py_add x y = Ok r -> value_wf n r.
Proof.
  intros Hx Hy. unfold py_add.
  destruct x as [| | | |a| |]; try apply arithmetic_wf.
  destruct y as [| | | |b| |]; try apply arithmetic_wf.
  intros [= <-]. apply value_wf_list. apply value_wf_list in Hx, Hy.
  apply Forall_app. split; assumption.
Qed.

Lemma py_mul_wf n x y r :
  value_wf n x -> value_wf n y -> py_mul x y = Ok r -> value_wf n r.
Proof.
  intros Hx Hy. unfold py_mul.
  destruct x as [|bx|zx|fx|a|px|ix psx bdx ex]; simpl;
    destruct y as [|by'|zy|fy|b|py|iy psy bdy ey]; simpl;
    try apply arithmetic_wf;
    try (apply repeat_list_wf; apply value_wf_list; assumption).
Qed.

Lemma fold_wf n f :
  (forall x y r, value_wf n x -> value_wf n y -> f x y = Ok r -> value_wf n r) ->
  forall args acc r,
    value_wf n acc -> Forall (value_wf n) args -> fold f acc args = Ok r ->
    value_wf n r.
Proof.
  intros Hf. induction args as [|y args IH]; intros acc r Hacc Hargs; simpl.
  - intros [= <-]. exact Hacc.
  - inversion Hargs as [|? ? Hy Hrest]; subst. intros H.
    apply bind_Ok in H as (acc' & Hstep & H).
    apply (IH acc'); [apply (Hf acc y); assumption|exact Hrest|exact H].
Qed.

Lemma reduce_wf n f :
  (forall x y r, value_wf n x -> value_wf n y -> f x y = Ok r -> value_wf n r) ->
  forall args r, Forall (value_wf n) args -> reduce f args = Ok r -> value_wf n r.
Proof.
  intros Hf [|x args] r Hargs; simpl; [discriminate|].
  inversion Hargs; subst. apply fold_wf; assumption.
Qed.

(** A primitive returns no environment that it was not given. *)
Lemma call_primitive_wf n p args r :
  Forall (value_wf n) args -> call_primitive p args = Ok r -> value_wf n r.
Proof.
  intros Hargs. destruct p; simpl.
  - apply reduce_wf; [apply py_add_wf|exact Hargs].
  - apply reduce_wf; [|exact Hargs]. intros x y r' _ _. apply arithmetic_wf.
  - apply reduce_wf; [apply py_mul_wf|exact Hargs].
  - apply reduce_wf; [|exact Hargs]. intros x y r' _ _. apply arithmetic_wf.
  - destruct args as [|a [|]]; try discriminate.
    inversion Hargs as [|? ? Ha _]; subst.
    destruct a as [| | | |[|x l]| |]; simpl; try discriminate.
    intros [= <-]. simpl in Ha. apply Ha.
  - destruct args as [|a [|]]; try discriminate.
    inversion Hargs as [|? ? Ha _]; subst.
    destruct a as [| | | |l| |]; simpl; try discriminate.
    intros [= <-]. destruct l as [|x l]; [exact I|]. simpl in Ha. apply Ha.
  - intros [= <-]. apply value_wf_list. exact Hargs.
  - unfold less_than. intros H. repeat (apply bind_Ok in H as (? & _ & H)).
    injection H as <-. exact I.
  - unfold greater_than. intros H. repeat (apply bind_Ok in H as (? & _ & H)).
    injection H as <-. exact I.
  - unfold equals. intros H. repeat (apply bind_Ok in H as (? & _ & H)).
    injection H as <-. exact I.
Qed.

Lemma setitem_lookup d key v d' x w :
  setitem d key v = Ok d' -> d' !! x = Some w -> w = v \/ d !! x = Some w.
Proof.
  destruct key as [z|f|s|l]; simpl; try discriminate; intros [= <-]; auto.
  destruct (decide (s = x)) as [->|Hne].
  - rewrite lookup_insert_eq. intros [= <-]. auto.
  - rewrite lookup_insert_ne by exact Hne. auto.
Qed.

Lemma dict_of_lookup pairs : forall d0 d x w,
  dict_of pairs d0 = Ok d -> d !! x = Some w ->
  d0 !! x = Some w \/ In w (map snd pairs).
Proof.
  induction pairs as [|[k v] pairs IH]; intros d0 d x w; simpl.
  - intros [= <-]. auto.
  - intros H Hx. apply bind_Ok in H as (d1 & Hset & H).
    destruct (IH _ _ _ _ H Hx) as [Hd1|Hin]; [|auto].
    destruct (setitem_lookup _ _ _ _ _ _ Hset Hd1) as [->|Hd0]; auto.
Qed.

Lemma set_var_wf st environment var v st' :
  store_wf st -> value_wf (next_frame st) v ->
  set_var st environment var v = Ok st' -> store_wf st'.
Proof.
  intros Hst Hv H. unfold set_var in H.
  apply bind_Ok in H as (d & Hset & H). injection H as <-.
  intros a x w. unfold frame_at. simpl.
  destruct (decide (frame environment = a)) as [<-|Hne].
  - rewrite lookup_insert_eq. simpl. intros Hx.
    destruct (setitem_lookup _ _ _ _ _ _ Hset Hx) as [->|Hold];
      [exact Hv|eapply Hst; exact Hold].
  - rewrite lookup_insert_ne by exact Hne. apply Hst.
Qed.

Lemma Environment_init_wf st var_names values parent scope st' :
  store_wf st -> Forall (value_wf (next_frame st)) values ->
  match parent with
  | Some p => env_wf (next_frame st) p
  | None => True
  end ->
  Environment_init st var_names values parent = Ok (scope, st') ->
  store_wf st' /\ env_wf (next_frame st') scope.
Proof.
  intros Hst Hvalues Hparent H. unfold Environment_init in H.
  apply bind_Ok in H as (names & _ & H).
  apply bind_Ok in H as (d & Hd & H). injection H as <- <-. simpl. split.
  - intros a x w. unfold frame_at. simpl.
    destruct (decide (next_frame st = a)) as [<-|Hne].
    + rewrite lookup_insert_eq. simpl. intros Hx.
      destruct (dict_of_lookup _ _ _ _ _ Hd Hx) as [Hempty|Hin].
      * rewrite lookup_empty in Hempty. discriminate.
      * apply (value_wf_mono (next_frame st)); [lia|].
        rewrite Forall_forall in Hvalues. apply Hvalues.
        apply list_elem_of_In.
        apply in_map_iff in Hin as ([k w'] & <- & Hin).
        eapply in_combine_r. exact Hin.
    + rewrite lookup_insert_ne by exact Hne. intros Hx.
      apply (value_wf_mono (next_frame st)); [lia|]. eapply Hst. exact Hx.
  - split; [lia|]. destruct parent as [p|]; [exact Hparent|exact I].
Qed.

Lemma evaluate_each_wf ev :
  wf_safe ev ->
  forall args environment st vs st',
    store_wf st -> env_wf (next_frame st) environment ->
    evaluate_each ev args environment st = Ok (vs, st') ->
    store_wf st' /\ Forall (value_wf (next_frame st')) vs
    /\ (next_frame st <= next_frame st')%nat.
Proof.
  intros Hev. induction args as [|a args IH]; intros environment st vs st' Hst Henv; simpl.
  - intros [= <- <-]. repeat split; [exact Hst|constructor|lia].
  - intros H. apply bind_Ok in H as ([v st1] & H1 & H).
    apply bind_Ok in H as ([vs' st2] & H2 & H). injection H as <- <-.
    destruct (Hev _ _ _ _ _ Hst Henv H1) as (Hst1 & Hv & Hle1).
    destruct (IH _ _ _ _ Hst1 (env_wf_mono _ _ _ Hle1 Henv) H2) as (Hst2 & Hvs & Hle2).
    repeat split; [exact Hst2| |lia].
    constructor; [|exact Hvs]. eapply value_wf_mono; [exact Hle2|exact Hv].
Qed.

Lemma call_wf ev :
  wf_safe ev ->
  forall func args st v st',
    store_wf st -> value_wf (next_frame st) func ->
    Forall (value_wf (next_frame st)) args ->
    call ev func args st = Ok (v, st') ->
    store_wf st' /\ value_wf (next_frame st') v
    /\ (next_frame st <= next_frame st')%nat.
Proof.
  intros Hev func args st v st' Hst Hfunc Hargs.
  destruct func as [| | | | |p|ident parameters expression captured];
    simpl; try discriminate.
  - intros H. apply bind_Ok in H as (w & Hw & H). injection H as <- <-.
    repeat split; [exact Hst| |lia]. eapply call_primitive_wf; eassumption.
  - unfold Procedure_call. intros H.
    apply bind_Ok in H as ([scope st1] & Hinit & H).
    destruct (Environment_init_wf _ _ _ (Some captured) _ _ Hst Hargs Hfunc Hinit)
      as (Hst1 & Hscope).
    apply Environment_init_store in Hinit as (_ & Hn & _).
    destruct (Hev _ _ _ _ _ Hst1 Hscope H) as (Hst' & Hv & Hle).
    repeat split; [exact Hst'|exact Hv|lia].
Qed.

(** [evaluate] keeps the store well formed, and returns well-formed
    values. *)
Lemma evaluate_wf (fuel : nat) : wf_safe (evaluate fuel).
Proof.
  induction fuel as [|fuel IH]; intros e environment st v st' Hst Henv;
    [discriminate|].
  destruct e as [z|f|s|[|head tail]].
  - simpl. destruct (is_int z); [|discriminate].
    intros [= <- <-]. repeat split; [exact Hst|lia].
  - simpl. intros [= <- <-]. repeat split; [exact Hst|lia].
  - simpl. intros H. apply bind_Ok in H as (w & Hw & H). injection H as <- <-.
    repeat split; [exact Hst| |lia].
    apply lookup_bound in Hw as (a & _ & Ha). eapply Hst. exact Ha.
  - discriminate.
  - rewrite evaluate_list_unfold.
    destruct (is_symbol head "def" || is_symbol head "define").
    { intros H. apply bind_Ok in H as (var & _ & H).
      apply bind_Ok in H as (e & _ & H).
      apply bind_Ok in H as ([val st1] & H1 & H).
      apply bind_Ok in H as (st2 & H2 & H). injection H as <- <-.
      destruct (IH _ _ _ _ _ Hst Henv H1) as (Hst1 & Hval & Hle).
      destruct (set_var_frames _ _ _ _ _ H2) as (Hn & _ & _).
      split; [eapply set_var_wf; eassumption|split; [exact I|lia]]. }
    destruct (is_symbol head "if").
    { intros H. apply bind_Ok in H as (predicate & _ & H).
      apply bind_Ok in H as (true_clause & _ & H).
      apply bind_Ok in H as (false_clause & _ & H).
      apply bind_Ok in H as ([p st1] & H1 & H).
      destruct (IH _ _ _ _ _ Hst Henv H1) as (Hst1 & _ & Hle).
      assert (Henv1 := env_wf_mono _ _ _ Hle Henv).
      destruct (truth p);
        destruct (IH _ _ _ _ _ Hst1 Henv1 H) as (Hst2 & Hv & Hle2);
        repeat split; try assumption; lia. }
    destruct (is_symbol head "fn" || is_symbol head "lambda").
    { intros H. apply bind_Ok in H as (params & _ & H).
      apply bind_Ok in H as (expression & _ & H).
      injection H as <- <-. repeat split; [exact Hst|exact Henv|simpl; lia]. }
    intros H. apply bind_Ok in H as ([func st1] & H1 & H).
    apply bind_Ok in H as ([args st2] & H2 & H).
    destruct (IH _ _ _ _ _ Hst Henv H1) as (Hst1 & Hfunc & Hle1).
    destruct (evaluate_each_wf _ IH _ _ _ _ _ Hst1 (env_wf_mono _ _ _ Hle1 Henv) H2)
      as (Hst2 & Hargs & Hle2).
    destruct (call_wf _ IH _ _ _ _ _ Hst2 (value_wf_mono _ _ Hle2 _ Hfunc) Hargs H)
      as (Hst3 & Hv & Hle3).
    repeat split; [exact Hst3|exact Hv|lia].
Qed.

Lemma empty_store_wf : store_wf empty_store.
Proof.
  intros a x v. unfold frame_at. simpl. rewrite lookup_empty. simpl.
  rewrite lookup_empty. discriminate.
Qed.

(** What [init_default_environment] builds: one frame, at address 0, with
    the twelve bindings, in an environment without parent. *)
Lemma init_default_environment_empty :
  init_default_environment empty_store
  = Ok (mkEnvironment 0 None,
        {| frames := {[0%nat := list_to_map default_bindings]};
           next_frame := 1;
           next_procedure := 0 |}).
Proof. vm_compute. reflexivity. Qed.

(** The default environment and its store are well formed. *)
Lemma init_default_environment_wf environment st :
  init_default_environment empty_store = Ok (environment, st) ->
  store_wf st /\ env_wf (next_frame st) environment.
Proof.
  rewrite init_default_environment_empty. intros [= <- <-]. split.
  - intros a x v. unfold frame_at.
    simpl.
    destruct (decide (a = 0%nat)) as [->|Hne].
    + rewrite lookup_singleton_eq. simpl. intros Hx.
      repeat (apply lookup_insert_Some in Hx as [[_ <-]|[_ Hx]]; [exact I|]).
      rewrite lookup_empty in Hx. discriminate.
    + rewrite lookup_singleton_ne by congruence. simpl.
      rewrite lookup_empty. discriminate.
  - simpl. split; [lia|exact I].
Qed.

(** Every store of a session is well formed, and so is the environment of
    the session in it. *)
Lemma repl_loop_wf fuel environment lines : forall st printed st',
  store_wf st -> env_wf (next_frame st) environment ->
  repl_loop fuel environment st lines = Ok (printed, st') ->
  store_wf st' /\ env_wf (next_frame st') environment.
Proof.
  induction lines as [|exp lines IH]; intros st printed st' Hst Henv; simpl.
  - intros [= <- <-]. split; assumption.
  - destruct (String.eqb exp "quit"); [intros [= <- <-]; split; assumption|].
    intros H. apply bind_Ok in H as (exptree & _ & H).
    apply bind_Ok in H as ([v st1] & H1 & H).
    apply bind_Ok in H as ([printed' st2] & H2 & H). injection H as <- <-.
    destruct (evaluate_wf _ _ _ _ _ _ Hst Henv H1) as (Hst1 & _ & Hle).
    eapply IH; [exact Hst1|eapply env_wf_mono; eassumption|exact H2].
Qed.

(** In a store that a session can reach, whatever is evaluated in a scope
    leaves every [lookup] from the parent of that scope as it was. *)
Lemma evaluate_keeps_parent fuel e a parent st v st' :
  env_wf (next_frame st) (mkEnvironment a (Some parent)) ->
  evaluate fuel e (mkEnvironment a (Some parent)) st = Ok (v, st') ->
  forall y, lookup st' parent y = lookup st parent y.
Proof.
  intros Hwf Heval y.
  assert (Hfresh := env_wf_parent_fresh _ _ _ Hwf).
  destruct Hwf as [Ha Hp]. apply env_wf_chain in Hp.
  apply evaluate_frame_safe in Heval as [_ Hf].
  apply lookup_ext. intros b Hb. apply Hf.
  - rewrite Forall_forall in Hp. apply Hp in Hb. lia.
  - simpl. intros ->. contradiction.
Qed.

(** * Further properties of the reader *)

Lemma flush_app word (l1 l2 : list string) :
  flush word (l1 ++ l2) = flush word l1 ++ l2.
Proof. destruct word; reflexivity. Qed.

Lemma scan_split (s1 : string) : forall word c s2,
  is_word c = false ->
  scan word (String.append s1 (String c s2))
  = scan word s1
    ++ (if is_punct c then [String c EmptyString] else [])
    ++ scan EmptyString s2.
Proof.
  induction s1 as [|d s1 IH]; intros word c s2 Hc; simpl.
  - rewrite Hc. destruct (is_punct c); simpl.
    + rewrite <- flush_app. reflexivity.
    + rewrite <- flush_app. reflexivity.
  - destruct (is_word d).
    + apply IH. exact Hc.
    + rewrite <- flush_app. f_equal.
      destruct (is_punct d); simpl; rewrite IH by exact Hc; reflexivity.
Qed.

(** X1: a character that is not a word character cuts the text in two: the
    tokens of the whole are the tokens of the part before it, then the
    character itself when it is one of the punctuation characters, then the
    tokens of the part after it.  White space and every other character
    only separate. *)
Theorem tokenize_split (s1 s2 : string) (c : ascii) :
  is_word c = false ->
  tokenize (String.append s1 (String c s2))
  = tokenize s1
    ++ (if is_punct c then [String c EmptyString] else [])
    ++ tokenize s2.
Proof. intros Hc. apply scan_split. exact Hc. Qed.

Lemma tokenize_split_witness :
  tokenize "(first x)(rest y)" = tokenize "(first x" ++ [")"] ++ tokenize "(rest y)"
  /\ tokenize "ab cd" = tokenize "ab" ++ tokenize "cd".
Proof.
  split.
  - apply (tokenize_split "(first x" "(rest y)" ")"). reflexivity.
  - apply (tokenize_split "ab" "cd" " "). reflexivity.
Defined.

(** X2: every token is a non-empty run of word characters or a single
    punctuation character; in particular no token holds white space, a sign
    next to digits, or a dot. *)
Theorem tokenize_tokens (expression t : string) :
  In t (tokenize expression) -> token_shape t.
Proof.
  intros Hin. assert (H := tokenize_shape expression).
  rewrite Forall_forall in H. apply H. apply list_elem_of_In. exact Hin.
Qed.

Lemma tokenize_tokens_witness : token_shape "first".
Proof.
  apply (tokenize_tokens "(first x)" "first"). vm_compute. auto.
Defined.

Lemma parse_raises_IndexError (n : nat) :
  (forall tokens e, parse_tokens n tokens = Raise e -> e = IndexError)
  /\ (forall tokens lst e, parse_list n tokens lst = Raise e -> e = IndexError).
Proof.
  induction n as [|n [IHt IHl]]; [split; intros; discriminate|].
  split.
  - intros [|token tokens] e; simpl; [intros [= <-]; reflexivity|].
    destruct (String.eqb token "("); [apply IHl|discriminate].
  - intros [|token tokens] lst e; simpl; [intros [= <-]; reflexivity|].
    destruct (String.eqb token ")"); [discriminate|].
    destruct (parse_tokens n (token :: tokens)) as [[e1 r1]|e1| |] eqn:H1;
      simpl; try discriminate.
    + apply IHl.
    + intros [= <-]. eapply IHt. exact H1.
Qed.

(** X3: on every text the reader ends, and it either returns a tree or
    raises [IndexError]; it has no other error. *)
Theorem parse_expression_answers (expression : string) :
  (exists tree, parse_expression expression = Ok tree)
  \/ parse_expression expression = Raise IndexError.
Proof.
  destruct (parse_expression_total expression) as [H|[e He]]; [left; exact H|].
  right. rewrite He. f_equal.
  unfold parse_expression in He.
  destruct (parse_tokens _ _) as [[tree r]|e'| |] eqn:H; simpl in He;
    try discriminate.
  injection He as <-. eapply (proj1 (parse_raises_IndexError _)). exact H.
Qed.

Lemma scan_separators (s : string) :
  Forall (fun c => is_separator c = true) (list_ascii_of_string s) ->
  scan EmptyString s = [].
Proof.
  induction s as [|c s IH]; simpl; [reflexivity|].
  intros H. inversion H as [|? ? Hc Hs]; subst.
  unfold is_separator in Hc. apply andb_prop in Hc as [Hw Hp].
  apply negb_true_iff in Hw, Hp. rewrite Hw, Hp. simpl. apply IH. exact Hs.
Qed.

(** X4: a text without any token, empty or made of white space and other
    skipped characters only, makes the reader raise [IndexError]. *)
Theorem parse_expression_blank (expression : string) :
  Forall (fun c => is_separator c = true) (list_ascii_of_string expression) ->
  parse_expression expression = Raise IndexError.
Proof.
  intros H. unfold parse_expression, tokenize.
  rewrite (scan_separators _ H). reflexivity.
Qed.

Lemma parse_expression_blank_witness :
  parse_expression "  , " = Raise IndexError.
Proof.
  apply (parse_expression_blank "  , "). repeat constructor.
Defined.

Lemma parse_without_close (n : nat) :
  (forall tokens, ~ In ")" tokens ->
     match parse_tokens n tokens with
     | Ok (_, r) => ~ In ")" r
     | Raise e => e = IndexError
     | OutOfFuel => True
     | HostDefined => False
     end)
  /\ (forall tokens lst, ~ In ")" tokens ->
        match parse_list n tokens lst with
        | Ok _ => False
        | Raise e => e = IndexError
        | OutOfFuel => True
        | HostDefined => False
        end).
Proof.
  induction n as [|n [IHt IHl]]; [split; intros; exact I|].
  split.
  - intros [|token tokens] Hno; simpl; [reflexivity|].
    destruct (String.eqb token "(").
    + assert (H := IHl tokens [] ltac:(intros H; apply Hno; right; exact H)).
      destruct (parse_list n tokens []) as [[e r]| | |]; tauto.
    + intros H. apply Hno. right. exact H.
  - intros [|token tokens] lst Hno; simpl; [reflexivity|].
    destruct (String.eqb_spec token ")") as [->|_]; [apply Hno; left; reflexivity|].
    assert (H := IHt (token :: tokens) Hno).
    destruct (parse_tokens n (token :: tokens)) as [[e r]| | |]; simpl; try tauto.
    apply IHl. exact H.
Qed.

(** X5: an open parenthesis that is never closed makes the reader raise
    [IndexError]: when the first token is [(] and no token [)] follows. *)
Theorem parse_expression_unclosed (expression : string) (tokens : list string) :
  tokenize expression = "(" :: tokens ->
  ~ In ")" tokens ->
  parse_expression expression = Raise IndexError.
Proof.
  intros Htok Hno. unfold parse_expression. rewrite Htok.
  assert (Hbig := parse_tokens_enough ("(" :: tokens)).
  unfold parse_fuel in *. simpl in Hbig |- *.
  match goal with
  | |- context [parse_list ?k tokens []] =>
      assert (H := proj2 (parse_without_close k) tokens [] Hno);
      destruct (parse_list k tokens []) as [[e r]|e| |]; simpl
  end.
  - contradiction.
  - rewrite H. reflexivity.
  - contradiction.
  - contradiction.
Qed.

Lemma parse_expression_unclosed_witness :
  parse_expression "(+ 1 (list 2" = Raise IndexError.
Proof.
  apply (parse_expression_unclosed "(+ 1 (list 2" ["+"; "1"; "("; "list"; "2"]).
  - reflexivity.
  - simpl. intros H. repeat (destruct H as [H|H]; [discriminate|]). exact H.
Defined.

Lemma parse_list_atoms (atoms : list string) : forall n rest lst,
  Forall (fun t => t <> "(" /\ t <> ")") atoms ->
  (length atoms < n)%nat ->
  parse_list n (atoms ++ ")" :: rest) lst
  = Ok (EList (lst ++ map typed atoms), rest).
Proof.
  induction atoms as [|t atoms IH]; intros n rest lst Hatoms Hn.
  - destruct n as [|n]; [lia|]. simpl. rewrite app_nil_r. reflexivity.
  - inversion Hatoms as [|? ? [Hopen Hclose] Hrest]; subst.
    destruct n as [|[|n]]; simpl in Hn; try lia.
    change (parse_list (S (S n)) ((t :: atoms) ++ ")" :: rest) lst)
      with (if String.eqb t ")" then Ok (EList lst, atoms ++ ")" :: rest)
            else let* (e, tokens) :=
                   (if String.eqb t "("
                    then parse_list n (atoms ++ ")" :: rest) []
                    else Ok (typed t, atoms ++ ")" :: rest)) in
                 parse_list (S n) tokens (lst ++ [e])).
    apply String.eqb_neq in Hopen, Hclose. rewrite Hopen, Hclose.
    unfold bind.
    rewrite IH by (try exact Hrest; lia).
    rewrite <- app_assoc. reflexivity.
Qed.

(** X6: a parenthesized run of tokens that are not parentheses is read as
    the list of those tokens, each classified by [typed], in their order;
    what follows the closing parenthesis is ignored. *)
Theorem parse_expression_flat_list
    (expression : string) (atoms rest : list string) :
  tokenize expression = "(" :: atoms ++ ")" :: rest ->
  Forall (fun t => t <> "(" /\ t <> ")") atoms ->
  parse_expression expression = Ok (EList (map typed atoms)).
Proof.
  intros Htok Hatoms. unfold parse_expression. rewrite Htok.
  assert (H : parse_tokens (S (S (length atoms))) ("(" :: atoms ++ ")" :: rest)
              = Ok (EList (map typed atoms), rest)).
  { simpl. apply (parse_list_atoms atoms (S (length atoms)) rest []); [exact Hatoms|lia]. }
  rewrite (parse_tokens_more _ (parse_fuel ("(" :: atoms ++ ")" :: rest)) _ _ H).
  - reflexivity.
  - discriminate.
  - unfold parse_fuel. simpl. rewrite length_app. simpl. lia.
Qed.

Lemma parse_expression_flat_list_witness :
  parse_expression "(define x 12) y"
  = Ok (EList [EStr "define"; EStr "x"; EInt 12]).
Proof.
  apply (parse_expression_flat_list "(define x 12) y" ["define"; "x"; "12"] ["y"]).
  - reflexivity.
  - repeat constructor; discriminate.
Defined.

Lemma parse_prefix (n : nat) :
  (forall tokens e r, parse_tokens n tokens = Ok (e, r) ->
     exists used, tokens = used ++ r /\ used <> []
                  /\ parse_tokens n used = Ok (e, []))
  /\ (forall tokens lst e r, parse_list n tokens lst = Ok (e, r) ->
        exists used, tokens = used ++ r /\ used <> []
                     /\ parse_list n used lst = Ok (e, [])).
Proof.
  induction n as [|n [IHt IHl]]; [split; intros; discriminate|].
  split.
  - intros [|token tokens] e r; simpl; [discriminate|].
    destruct (String.eqb token "(") eqn:Hopen.
    + intros H. apply IHl in H as (used & -> & _ & H).
      exists (token :: used). split; [reflexivity|]. split; [discriminate|].
      simpl. rewrite Hopen. exact H.
    + intros [= <- <-]. exists [token]. split; [reflexivity|].
      split; [discriminate|]. simpl. rewrite Hopen. reflexivity.
  - intros [|token tokens] lst e r; simpl; [discriminate|].
    destruct (String.eqb token ")") eqn:Hclose.
    + intros [= <- <-]. exists [token]. split; [reflexivity|].
      split; [discriminate|]. simpl. rewrite Hclose. reflexivity.
    + destruct (parse_tokens n (token :: tokens)) as [[e1 r1]| | |] eqn:H1;
        simpl; try discriminate.
      intros H2.
      apply IHt in H1 as (u1 & Hu1 & Hne & H1).
      apply IHl in H2 as (u2 & -> & _ & H2).
      exists (u1 ++ u2). split; [rewrite <- app_assoc; exact Hu1|].
      split; [destruct u1; [contradiction|discriminate]|].
      destruct u1 as [|t u1]; [contradiction|].
      injection Hu1 as Ht _. subst t.
      cbn [app]. rewrite Hclose.
      change (token :: u1 ++ u2) with ((token :: u1) ++ u2).
      rewrite (proj1 (parse_trailing n u2) _ _ _ H1). simpl. exact H2.
Qed.

(** X7: what [parse_tokens] returns depends on the tokens it consumed and
    on nothing behind them: the tokens it leaves are a proper suffix of its
    input, and the consumed tokens alone are read as the same tree, with
    nothing left. *)
Theorem parse_tokens_prefix (fuel : nat) (tokens : list string)
    (tree : exptree) (rest : list string) :
  parse_tokens fuel tokens = Ok (tree, rest) ->
  exists used,
    tokens = used ++ rest /\ used <> []
    /\ parse_tokens fuel used = Ok (tree, []).
Proof. apply parse_prefix. Qed.

Lemma parse_tokens_prefix_witness :
  exists used,
    ["("; "list"; "1"; ")"; "2"; ")"] = used ++ ["2"; ")"] /\ used <> []
    /\ parse_tokens 5 used = Ok (EList [EStr "list"; EInt 1], []).
Proof.
  apply (parse_tokens_prefix 5 ["("; "list"; "1"; ")"; "2"; ")"]).
  reflexivity.
Defined.

Lemma decimal_snoc (s : string) : forall acc d,
  decimal acc (String.append s (String d EmptyString))
  = 10 * decimal acc s + digit_value d.
Proof. induction s as [|c s IH]; intros acc d; simpl; [reflexivity|apply IH]. Qed.

Lemma all_digits_snoc (s : string) d :
  all_digits s = true -> is_digit d = true ->
  all_digits (String.append s (String d EmptyString)) = true.
Proof.
  induction s as [|c s IH]; simpl; intros Hs Hd.
  - rewrite Hd. reflexivity.
  - apply andb_prop in Hs as [Hc Hs]. rewrite Hc. simpl. apply IH; assumption.
Qed.

Lemma digit_value_range d : is_digit d = true -> 0 <= digit_value d <= 9.
Proof.
  unfold is_digit, digit_value. intros H. apply andb_prop in H as [H1 H2].
  apply Nat.leb_le in H1, H2. lia.
Qed.

Lemma decimal_nonneg (s : string) : forall acc,
  all_digits s = true -> 0 <= acc -> 0 <= decimal acc s.
Proof.
  induction s as [|c s IH]; intros acc Hs Hacc; simpl; [exact Hacc|].
  simpl in Hs. apply andb_prop in Hs as [Hc Hs].
  apply IH; [exact Hs|]. apply digit_value_range in Hc. lia.
Qed.

(** X8: a token made of digits is read as the integer it writes in base
    ten, never as a float or a symbol: the integer is not negative, a zero
    in front does not change it, and one more digit [d] at the end turns
    the integer [z] into [10 z + d]. *)
Theorem typed_digits (s : string) (d : ascii) :
  is_digits s = true -> is_digit d = true ->
  exists z,
    typed s = EInt z /\ 0 <= z
    /\ typed (String "0" s) = EInt z
    /\ typed (String.append s (String d EmptyString)) = EInt (10 * z + digit_value d).
Proof.
  intros Hs Hd. exists (decimal 0 s).
  assert (Hall : all_digits s = true) by (destruct s; [discriminate|exact Hs]).
  split; [unfold typed, int_of_token; rewrite Hs; reflexivity|].
  split; [apply decimal_nonneg; [exact Hall|lia]|].
  split.
  - unfold typed, int_of_token. simpl. rewrite Hall. reflexivity.
  - unfold typed, int_of_token.
    assert (H : is_digits (String.append s (String d EmptyString)) = true).
    { destruct s as [|c s]; [discriminate|]. simpl in *.
      apply andb_prop in Hs as [Hc Hs']. rewrite Hc. simpl.
      apply all_digits_snoc; assumption. }
    rewrite H. rewrite decimal_snoc. reflexivity.
Qed.

Lemma typed_digits_witness :
  exists z,
    typed "12" = EInt z /\ 0 <= z
    /\ typed "012" = EInt z
    /\ typed "127" = EInt (10 * z + digit_value "7").
Proof. apply (typed_digits "12" "7"); reflexivity. Defined.

(** * Further properties of environments *)

(** X9: [lookup] returns the binding of the innermost frame of the chain
    that binds the name: it answers [v] exactly when some frame of the chain
    binds the name to [v] and no frame before it, from the local one
    outward, binds the name at all. *)
Theorem lookup_innermost (st : store) (self : Environment)
    (var_name : string) (v : value) :
  lookup st self var_name = Ok v
  <-> exists inner a outer,
        chain self = inner ++ a :: outer
        /\ Forall (fun b => frame_at st b !! var_name = None) inner
        /\ frame_at st a !! var_name = Some v.
Proof.
  induction self as [a|a p IH] using Environment_chain_ind;
    rewrite lookup_unfold; simpl.
  - split.
    + destruct (frame_at st a !! var_name) as [w|] eqn:Hw; [|discriminate].
      intros [= <-]. exists [], a, []. repeat split; [constructor|exact Hw].
    + intros (inner & b & outer & Hchain & Hinner & Hb).
      destruct inner as [|c inner]; simpl in Hchain.
      * injection Hchain as <- _. rewrite Hb. reflexivity.
      * injection Hchain as _ Hchain. destruct inner; discriminate.
  - split.
    + destruct (frame_at st a !! var_name) as [w|] eqn:Hw.
      * intros [= <-]. exists [], a, (chain p).
        repeat split; [constructor|exact Hw].
      * intros H. apply IH in H as (inner & b & outer & Hchain & Hinner & Hb).
        exists (a :: inner), b, outer. rewrite Hchain.
        repeat split; [constructor; assumption|exact Hb].
    + intros (inner & b & outer & Hchain & Hinner & Hb).
      destruct inner as [|c inner]; simpl in Hchain.
      * injection Hchain as <- _. rewrite Hb. reflexivity.
      * injection Hchain as <- Hchain.
        inversion Hinner as [|? ? Hc Hrest]; subst. rewrite Hc.
        apply IH. exists inner, b, outer. repeat split; assumption.
Qed.

Lemma lookup_ext_name st st' self var_name :
  (forall a, a ∈ chain self ->
             frame_at st' a !! var_name = frame_at st a !! var_name) ->
  lookup st' self var_name = lookup st self var_name.
Proof.
  induction self as [a|a p IH] using Environment_chain_ind; intros H.
  - rewrite !lookup_unfold, (H a) by (simpl; left). reflexivity.
  - rewrite !lookup_unfold, (H a) by (simpl; left).
    rewrite IH; [reflexivity|]. intros b Hb. apply H. simpl. right. exact Hb.
Qed.

(** X10: binding a name disturbs no other name, from whatever environment
    one looks, and a second binding of the same name in the same environment
    replaces the first: the store is the one that the second binding alone
    would have given. *)
Theorem set_var_other_names (st : store) (self other : Environment)
    (x y : string) (v : value) :
  x <> y ->
  exists st',
    set_var st self (EStr x) v = Ok st'
    /\ lookup st' other y = lookup st other y
    /\ (forall w, set_var st' self (EStr x) w = set_var st self (EStr x) w).
Proof.
  intros Hxy. eexists. split; [apply set_var_str|]. split.
  - apply lookup_ext_name. intros a _. unfold frame_at. simpl.
    destruct (decide (frame self = a)) as [<-|Hne].
    + rewrite lookup_insert_eq. simpl. apply lookup_insert_ne. exact Hxy.
    + rewrite lookup_insert_ne by exact Hne. reflexivity.
  - intros w. rewrite !set_var_str. f_equal. unfold frame_at. simpl.
    rewrite lookup_insert_eq. simpl.
    rewrite !insert_insert_eq. reflexivity.
Qed.

Lemma set_var_other_names_witness :
  exists st',
    set_var sample_store sample_child (EStr "x") (VInt 2) = Ok st'
    /\ lookup st' sample_child "first" = lookup sample_store sample_child "first"
    /\ (forall w, set_var st' sample_child (EStr "x") w
                  = set_var sample_store sample_child (EStr "x") w).
Proof.
  apply (set_var_other_names sample_store sample_child sample_child "x" "first").
  discriminate.
Defined.

Lemma combine_keys (xs : list string) : forall (vs : list value) x,
  In x (map fst (combine xs vs)) ->
  exists j, (j < length vs)%nat /\ xs !! j = Some x.
Proof.
  induction xs as [|y xs IH]; intros [|v vs] x; simpl; try tauto.
  intros [<-|Hin].
  - exists 0%nat. split; [lia|reflexivity].
  - apply IH in Hin as (j & Hj & Hx). exists (S j). split; [lia|exact Hx].
Qed.

(** X11: a new environment binds its names to the values by position.
    With distinct names, each name that has a value at its position is
    looked up to that value; a name beyond the last value is not bound in
    the new frame, and values beyond the last name are dropped; no other
    name is bound there, so it is looked up in the parent.  Too few or too
    many values raise nothing. *)
Theorem Environment_init_binds (st : store) (xs : list string)
    (vs : list value) (parent : option Environment) :
  NoDup xs ->
  exists scope st',
    Environment_init st (EList (map EStr xs)) vs parent = Ok (scope, st')
    /\ parent_environment scope = parent
    /\ (forall i x v, xs !! i = Some x -> vs !! i = Some v ->
                      lookup st' scope x = Ok v)
    /\ (forall i x, xs !! i = Some x -> (length vs <= i)%nat ->
                    frame_at st' (frame scope) !! x = None)
    /\ (forall y, ~ In y xs ->
                  lookup st' scope y
                  = match parent with
                    | Some p => lookup st' p y
                    | None => Raise (NotDefined y)
                    end).
Proof.
  intros Hnd. unfold Environment_init. simpl. rewrite dict_of_names. simpl.
  eexists _, _. split; [reflexivity|]. split; [reflexivity|].
  assert (Hframe : forall d F n p,
            frame_at {| frames := <[n := d]> F; next_frame := S n; next_procedure := p |} n = d).
  { intros d F n p. unfold frame_at. simpl. rewrite lookup_insert_eq. reflexivity. }
  split; [|split].
  - intros i x v Hx Hv. rewrite lookup_unfold, Hframe.
    rewrite (bind_all_lookup xs vs ∅ i x v Hnd Hx Hv). reflexivity.
  - intros i x Hx Hi. simpl. rewrite Hframe.
    rewrite bind_all_other; [apply lookup_empty|].
    intros Hin. apply list_elem_of_In, combine_keys in Hin as (j & Hj & Hxj).
    assert (i = j) by (eapply NoDup_lookup; eassumption). lia.
  - intros y Hy. rewrite lookup_unfold, Hframe.
    rewrite bind_all_other; [rewrite lookup_empty; reflexivity|].
    intros Hin. apply Hy. apply list_elem_of_In in Hin.
    apply in_map_iff in Hin as ([a b] & <- & Hin).
    eapply in_combine_l. exact Hin.
Qed.

Lemma Environment_init_binds_witness :
  exists scope st',
    Environment_init sample_store (EList (map EStr ["a"; "b"])) [VInt 1]
      (Some sample_global) = Ok (scope, st')
    /\ lookup st' scope "a" = Ok (VInt 1)
    /\ frame_at st' (frame scope) !! "b" = None.
Proof.
  destruct (Environment_init_binds sample_store ["a"; "b"] [VInt 1]
              (Some sample_global))
    as (scope & st' & Hinit & _ & Hbound & Hmissing & _).
  - repeat constructor; intros H; apply list_elem_of_In in H; simpl in H;
      intuition discriminate.
  - exists scope, st'. split; [exact Hinit|]. split.
    + apply (Hbound 0%nat "a" (VInt 1)); reflexivity.
    + apply (Hmissing 1%nat "b"); [reflexivity|simpl; lia].
Defined.

(** * Further properties of the evaluator *)

(** X12: a special form with too few operands raises [IndexError] before
    anything is evaluated or bound: [if] with fewer than three operands,
    even when the branch that is missing would not be taken, and [def],
    [define], [fn] and [lambda] with fewer than two. *)
Theorem special_form_too_short (fuel : nat) (head : exptree)
    (tail : list exptree) (environment : Environment) (st : store) :
  (is_symbol head "if" = true /\ (length tail < 3)%nat)
  \/ ((is_symbol head "def" || is_symbol head "define"
       || is_symbol head "fn" || is_symbol head "lambda") = true
      /\ (length tail < 2)%nat) ->
  evaluate (S fuel) (EList (head :: tail)) environment st = Raise IndexError.
Proof.
  intros [[Hif Hlen]|[Hother Hlen]].
  - apply is_symbol_true in Hif. subst head.
    destruct tail as [|a [|b [|c tail]]]; simpl in Hlen; try lia; reflexivity.
  - repeat (apply orb_prop in Hother as [Hother|Hother]);
      apply is_symbol_true in Hother; subst head;
      destruct tail as [|a [|b tail]]; simpl in Hlen; try lia; reflexivity.
Qed.

Lemma special_form_too_short_witness :
  run 2 "(if 1 2)" = Raise IndexError.
Proof.
  unfold run. change (parse_expression "(if 1 2)")
    with (Ok (A:=exptree) (EList [EStr "if"; EInt 1; EInt 2])).
  rewrite init_default_environment_empty. cbn [bind].
  rewrite (special_form_too_short 1 (EStr "if") [EInt 1; EInt 2]).
  - reflexivity.
  - left. split; [reflexivity|simpl; lia].
Defined.

(** X13: after [(define x e)] has been evaluated, the name [x] evaluates in
    the same environment to the value that [e] had, and every other name
    looks up as it did once [e] was evaluated; the definition itself
    returns [None], and operands behind [e] are ignored. *)
Theorem define_then_lookup (fuel : nat) (x : string) (e : exptree)
    (more : list exptree) (environment : Environment) (st st1 : store)
    (v : value) :
  evaluate fuel e environment st = Ok (v, st1) ->
  exists st2,
    evaluate (S fuel) (EList (EStr "define" :: EStr x :: e :: more)) environment st
      = Ok (VNone, st2)
    /\ (forall n, evaluate (S n) (EStr x) environment st2 = Ok (v, st2))
    /\ (forall y, y <> x -> lookup st2 environment y = lookup st1 environment y).
Proof.
  intros He. eexists. split; [|split].
  - change (evaluate (S fuel) _ environment st)
      with (let* (val, st1) := evaluate fuel e environment st in
            let* st2 := set_var st1 environment (EStr x) val in
            Ok (VNone, st2)).
    rewrite He. cbn [bind]. rewrite set_var_str. reflexivity.
  - intros n.
    change (evaluate (S n) (EStr x) environment ?s)
      with (let* w := lookup s environment x in Ok (w, s)).
    destruct environment as [a p]. rewrite lookup_unfold.
    unfold frame_at. simpl. rewrite lookup_insert_eq. simpl.
    rewrite lookup_insert_eq. reflexivity.
  - intros y Hy. apply lookup_ext_name. intros a _. unfold frame_at. simpl.
    destruct (decide (frame environment = a)) as [<-|Hne].
    + rewrite lookup_insert_eq. simpl. apply lookup_insert_ne. congruence.
    + rewrite lookup_insert_ne by exact Hne. reflexivity.
Qed.

Lemma define_then_lookup_witness :
  exists st2,
    evaluate 3 (EList [EStr "define"; EStr "y"; EList [EStr "+"; EStr "x"; EInt 1]])
      sample_child sample_store = Ok (VNone, st2)
    /\ (forall n, evaluate (S n) (EStr "y") sample_child st2 = Ok (VInt 2, st2))
    /\ (forall z, z <> "y" -> lookup st2 sample_child z
                             = lookup sample_store sample_child z).
Proof.
  apply (define_then_lookup 2 "y" (EList [EStr "+"; EStr "x"; EInt 1]) []
           sample_child sample_store sample_store (VInt 2)).
  vm_compute. reflexivity.
Defined.

(** X14: once the operator and the operands of a call are evaluated, the
    call itself changes no frame that exists: whatever the body of the
    procedure defines goes into the frame of the call.  So every [lookup]
    from an environment that existed before the call answers after the call
    what it answered before. *)
Theorem call_keeps_frames (fuel : nat) (head : exptree) (tail : list exptree)
    (environment : Environment) (st st1 st2 st3 : store)
    (func v : value) (args : list value) :
  special head = false ->
  evaluate fuel head environment st = Ok (func, st1) ->
  evaluate_each (evaluate fuel) tail environment st1 = Ok (args, st2) ->
  evaluate (S fuel) (EList (head :: tail)) environment st = Ok (v, st3) ->
  (forall a, (a < next_frame st2)%nat -> frame_at st3 a = frame_at st2 a)
  /\ (forall other y, allocated st2 other ->
                      lookup st3 other y = lookup st2 other y).
Proof.
  intros Hspecial Hhead Hargs Hcall.
  rewrite evaluate_list_unfold in Hcall. unfold special in Hspecial.
  repeat (apply orb_false_elim in Hspecial as [Hspecial ?]).
  repeat match goal with H : is_symbol head _ = false |- _ => rewrite H in Hcall end.
  simpl in Hcall. rewrite Hhead in Hcall. simpl in Hcall.
  rewrite Hargs in Hcall. simpl in Hcall.
  apply (call_untouched _ (evaluate_frame_safe fuel)) in Hcall as [_ Hf].
  split; [exact Hf|].
  intros other y Halloc. apply lookup_ext. intros a Ha. apply Hf.
  unfold allocated in Halloc. rewrite Forall_forall in Halloc.
  apply Halloc. exact Ha.
Qed.

Lemma call_keeps_frames_witness :
  exists st3,
    evaluate 4 (EList [EStr "f"]) (fst body_define_session) (snd body_define_session)
      = Ok (VNone, st3)
    /\ lookup st3 (fst body_define_session) "a" = Ok (VInt 1).
Proof.
  assert (H : exists st3,
             evaluate 4 (EList [EStr "f"]) (fst body_define_session)
               (snd body_define_session) = Ok (VNone, st3))
    by (eexists; vm_compute; reflexivity).
  destruct H as [st3 H]. exists st3. split; [exact H|].
  destruct (call_keeps_frames 3 (EStr "f") [] (fst body_define_session)
              (snd body_define_session) (snd body_define_session)
              (snd body_define_session) st3
              (VProc 0 (EList []) (EList [EStr "define"; EStr "a"; EInt 5])
                 (fst body_define_session))
              VNone [])
    as [_ Hlookup]; try (vm_compute; reflexivity); [exact H|].
  rewrite (Hlookup (fst body_define_session) "a").
  - vm_compute. reflexivity.
  - repeat constructor.
Defined.

Lemma evaluate_each_raise ev (done : list exptree) :
  forall environment st vs st1 bad rest e,
    evaluate_each ev done environment st = Ok (vs, st1) ->
    ev bad environment st1 = Raise e ->
    evaluate_each ev (done ++ bad :: rest) environment st = Raise e.
Proof.
  induction done as [|a done IH]; intros environment st vs st1 bad rest e; simpl.
  - intros [= <- <-] Hbad. rewrite Hbad. reflexivity.
  - intros H Hbad. apply bind_Ok in H as ([v st2] & Ha & H).
    apply bind_Ok in H as ([vs' st3] & Hdone & H). injection H as <- <-.
    rewrite Ha. simpl. rewrite (IH _ _ _ _ _ rest _ Hdone Hbad). reflexivity.
Qed.

(** X15: in a call the operator is evaluated first and the operands after
    it, from left to right, and the first of them that raises ends the
    evaluation with its exception: nothing behind it is evaluated, and
    whether the operator can be called at all is looked at only after every
    operand has a value. *)
Theorem application_error_order (fuel : nat) (head : exptree)
    (tail : list exptree) (environment : Environment) (st : store) (e : exn) :
  special head = false ->
  (evaluate fuel head environment st = Raise e ->
   evaluate (S fuel) (EList (head :: tail)) environment st = Raise e)
  /\ (forall func st1 done bad rest vs st2,
        evaluate fuel head environment st = Ok (func, st1) ->
        tail = done ++ bad :: rest ->
        evaluate_each (evaluate fuel) done environment st1 = Ok (vs, st2) ->
        evaluate fuel bad environment st2 = Raise e ->
        evaluate (S fuel) (EList (head :: tail)) environment st = Raise e).
Proof.
  intros Hspecial. rewrite evaluate_list_unfold. unfold special in Hspecial.
  repeat (apply orb_false_elim in Hspecial as [Hspecial ?]).
  repeat match goal with H : is_symbol head _ = false |- _ => rewrite H end.
  simpl. split.
  - intros ->. reflexivity.
  - intros func st1 done bad rest vs st2 -> -> Hdone Hbad. simpl.
    rewrite (evaluate_each_raise _ _ _ _ _ _ _ rest _ Hdone Hbad). reflexivity.
Qed.

Lemma application_error_order_witness :
  run 2 "(1 nosuch)" = Raise (NotDefined "nosuch").
Proof.
  unfold run. change (parse_expression "(1 nosuch)")
    with (Ok (A:=exptree) (EList [EInt 1; EStr "nosuch"])).
  rewrite init_default_environment_empty. cbn [bind].
  destruct (application_error_order 1 (EInt 1) [EStr "nosuch"]
              (mkEnvironment 0 None)
              {| frames := {[0%nat := list_to_map default_bindings]};
                 next_frame := 1; next_procedure := 0 |}
              (NotDefined "nosuch") eq_refl) as [_ H].
  rewrite (H (VInt 1) _ [] (EStr "nosuch") [] [] _ eq_refl eq_refl eq_refl).
  - reflexivity.
  - vm_compute. reflexivity.
Defined.

Lemma extends_refl {A : Type} (r : outcome A) : extends r r.
Proof. intros _. reflexivity. Qed.

Lemma bind_extends {A B : Type} (m1 m2 : outcome A) (k1 k2 : A -> outcome B) :
  extends m1 m2 -> (forall a, extends (k1 a) (k2 a)) ->
  extends (bind m1 k1) (bind m2 k2).
Proof.
  intros Hm Hk Hne. destruct m1 as [a|e| |]; simpl in *.
  - rewrite Hm by discriminate. simpl. apply Hk. exact Hne.
  - rewrite Hm by discriminate. reflexivity.
  - contradiction.
  - rewrite Hm by discriminate. reflexivity.
Qed.

Lemma evaluate_each_extends ev1 ev2 :
  (forall e environment st, extends (ev1 e environment st) (ev2 e environment st)) ->
  forall args environment st,
    extends (evaluate_each ev1 args environment st)
            (evaluate_each ev2 args environment st).
Proof.
  intros Hev. induction args as [|a args IH]; intros environment st; simpl.
  - apply extends_refl.
  - apply bind_extends; [apply Hev|]. intros [v st1].
    apply bind_extends; [apply IH|]. intros [vs st2]. apply extends_refl.
Qed.

Lemma call_extends ev1 ev2 :
  (forall e environment st, extends (ev1 e environment st) (ev2 e environment st)) ->
  forall func args st, extends (call ev1 func args st) (call ev2 func args st).
Proof.
  intros Hev func args st.
  destruct func as [| | | | |p|ident parameters expression captured];
    simpl; try apply extends_refl.
  unfold Procedure_call. apply bind_extends; [apply extends_refl|].
  intros [scope st1]. apply Hev.
Qed.

Lemma evaluate_step (fuel : nat) : forall e environment st,
  extends (evaluate fuel e environment st) (evaluate (S fuel) e environment st).
Proof.
  induction fuel as [|fuel IH]; intros e environment st;
    [intros H; contradiction H; reflexivity|].
  destruct e as [z|f|s|[|head tail]]; try apply extends_refl.
  rewrite (evaluate_list_unfold fuel), (evaluate_list_unfold (S fuel)).
  destruct (is_symbol head "def" || is_symbol head "define").
  { apply bind_extends; [apply extends_refl|]. intros var.
    apply bind_extends; [apply extends_refl|]. intros e.
    apply bind_extends; [apply IH|]. intros [val st1]. apply extends_refl. }
  destruct (is_symbol head "if").
  { apply bind_extends; [apply extends_refl|]. intros predicate.
    apply bind_extends; [apply extends_refl|]. intros true_clause.
    apply bind_extends; [apply extends_refl|]. intros false_clause.
    apply bind_extends; [apply IH|]. intros [p st1].
    destruct (truth p); apply IH. }
  destruct (is_symbol head "fn" || is_symbol head "lambda");
    [apply extends_refl|].
  apply bind_extends; [apply IH|]. intros [func st1].
  apply bind_extends; [apply evaluate_each_extends; exact IH|]. intros [args st2].
  apply call_extends. exact IH.
Qed.

(** X16: an evaluation that ends within some depth of recursion, with a
    value or with an exception, ends in the same way, with the same store,
    within every greater depth. *)
Theorem evaluate_more_fuel (fuel fuel' : nat) (e : exptree)
    (environment : Environment) (st : store) (r : outcome (value * store)) :
  evaluate fuel e environment st = r -> r <> OutOfFuel -> (fuel <= fuel')%nat ->
  evaluate fuel' e environment st = r.
Proof.
  intros Hr Hne Hle. induction Hle as [|m Hle IH]; [exact Hr|].
  rewrite <- IH. apply evaluate_step. rewrite IH. exact Hne.
Qed.

Lemma evaluate_more_fuel_witness :
  evaluate 50 (EList [EStr "+"; EInt 1; EInt 2]) sample_global sample_store
  = Ok (VInt 3, sample_store).
Proof.
  apply (evaluate_more_fuel 2 50); [vm_compute; reflexivity|discriminate|lia].
Defined.

Lemma env_wf_NoDup n self : env_wf n self -> NoDup (chain self).
Proof.
  revert n. induction self as [a|a p IH] using Environment_chain_ind;
    intros n Hwf; simpl.
  - apply NoDup_singleton.
  - apply NoDup_cons. split.
    + eapply env_wf_parent_fresh. exact Hwf.
    + destruct Hwf as [_ Hp]. eapply IH. exact Hp.
Qed.

(** X17: in every store that a session reaches, the environment that a
    bound procedure captured is made of frames that exist, none of them
    twice, each parent's frame older than its child's; the same holds for
    the environment of the session. *)
Theorem session_environments_wf (fuel : nat) (lines : list string)
    (environment : Environment) (st st' : store) (printed : list value) :
  init_default_environment empty_store = Ok (environment, st) ->
  repl_loop fuel environment st lines = Ok (printed, st') ->
  store_wf st' /\ env_wf (next_frame st') environment
  /\ forall a x ident parameters expression captured,
       frame_at st' a !! x = Some (VProc ident parameters expression captured) ->
       env_wf (next_frame st') captured
       /\ allocated st' captured /\ NoDup (chain captured).
Proof.
  intros Hinit Hloop.
  destruct (init_default_environment_wf _ _ Hinit) as [Hst Henv].
  destruct (repl_loop_wf _ _ _ _ _ _ Hst Henv Hloop) as [Hst' Henv'].
  split; [exact Hst'|]. split; [exact Henv'|].
  intros a x ident parameters expression captured Hx.
  apply Hst' in Hx. simpl in Hx.
  split; [exact Hx|]. split; [apply env_wf_allocated; exact Hx|].
  eapply env_wf_NoDup. exact Hx.
Qed.

Lemma session_environments_wf_witness :
  store_wf closure_store /\ env_wf (next_frame closure_store) closure_global
  /\ forall a x ident parameters expression captured,
       frame_at closure_store a !! x
         = Some (VProc ident parameters expression captured) ->
       env_wf (next_frame closure_store) captured
       /\ allocated closure_store captured /\ NoDup (chain captured).
Proof.
  assert (H : exists printed,
             repl_loop 10 (mkEnvironment 0 None)
               {| frames := {[0%nat := list_to_map default_bindings]};
                  next_frame := 1; next_procedure := 0 |}
               ["(define mk (fn (a) (fn (b) (+ a b))))";
                "(define add3 (mk 3))";
                "(define a 100)"]
             = Ok (printed, closure_store))
    by (eexists; vm_compute; reflexivity).
  destruct H as [printed H].
  exact (session_environments_wf 10 _ _ _ _ printed
           init_default_environment_empty H).
Defined.

(** * Further properties of the primitives *)

Lemma fold_py_add_integers (l : list Z) : forall a : Z,
  fold py_add (VInt a) (map VInt l) = Ok (VInt (a + fold_right Z.add 0 l)).
Proof.
  induction l as [|b l IH]; intros a; simpl; [f_equal; f_equal; lia|].
  rewrite IH. f_equal. f_equal. lia.
Qed.

Lemma fold_py_sub_integers (l : list Z) : forall a : Z,
  fold py_sub (VInt a) (map VInt l) = Ok (VInt (a - fold_right Z.add 0 l)).
Proof.
  induction l as [|b l IH]; intros a; simpl; [f_equal; f_equal; lia|].
  rewrite IH. f_equal. f_equal. lia.
Qed.

Lemma fold_py_mul_integers (l : list Z) : forall a : Z,
  fold py_mul (VInt a) (map VInt l) = Ok (VInt (a * fold_right Z.mul 1 l)).
Proof.
  induction l as [|b l IH]; intros a; simpl; [f_equal; f_equal; lia|].
  rewrite IH. f_equal. f_equal. lia.
Qed.

(** X18: on integers [+], [-] and [*] never fail and never round: [+]
    returns the sum of its arguments, [*] their product, and [-] the first
    argument less the sum of the others.  With a single argument each of
    the four arithmetic primitives returns it as it is, whatever it is, and
    with no argument each raises [TypeError]. *)
Theorem arithmetic_on_integers (a : Z) (l : list Z) :
  add (map VInt (a :: l)) = Ok (VInt (a + fold_right Z.add 0 l))
  /\ subtract (map VInt (a :: l)) = Ok (VInt (a - fold_right Z.add 0 l))
  /\ multiply (map VInt (a :: l)) = Ok (VInt (a * fold_right Z.mul 1 l))
  /\ (forall v, add [v] = Ok v /\ subtract [v] = Ok v
                /\ multiply [v] = Ok v /\ divide [v] = Ok v)
  /\ add [] = Raise TypeError /\ subtract [] = Raise TypeError
  /\ multiply [] = Raise TypeError /\ divide [] = Raise TypeError.
Proof.
  split; [apply fold_py_add_integers|].
  split; [apply fold_py_sub_integers|].
  split; [apply fold_py_mul_integers|].
  split; [intros v; repeat split|repeat split].
Qed.

Lemma tail_drop {A : Type} (n : nat) : forall l : list A,
  tail (drop n l) = drop (S n) l.
Proof.
  induction n as [|n IH]; intros [|x l]; simpl; try reflexivity.
  apply IH.
Qed.

Lemma rest_iterated (l : list value) (n : nat) :
  Nat.iter n (fun r => let* v := r in call_primitive Prest [v]) (Ok (VList l))
  = Ok (VList (drop n l)).
Proof.
  induction n as [|n IH]; [reflexivity|].
  simpl. simpl in IH. rewrite IH. simpl. rewrite tail_drop. reflexivity.
Qed.

(** X19: [first] returns the first item of a list and raises [IndexError]
    on the empty list, while [rest] never fails on a list: it drops the
    first item and returns the empty list for the empty list.  Applying
    [rest] [n] times and then [first] returns item [n] of the list, or
    raises [IndexError] when the list has no such item.  Both raise
    [TypeError] on anything that is not a list, and when called with no
    argument or with more than one. *)
Theorem first_and_rest (l : list value) :
  call_primitive Pfirst [VList l]
  = match l with
    | x :: _ => Ok x
    | [] => Raise IndexError
    end
  /\ call_primitive Prest [VList l] = Ok (VList (tail l))
  /\ (forall n,
        (let* v := Nat.iter n (fun r => let* v := r in call_primitive Prest [v])
                     (Ok (VList l)) in
         call_primitive Pfirst [v])
        = match l !! n with
          | Some x => Ok x
          | None => Raise IndexError
          end)
  /\ (forall v, (forall l', v <> VList l') ->
                call_primitive Pfirst [v] = Raise TypeError
                /\ call_primitive Prest [v] = Raise TypeError)
  /\ (forall args, length args <> 1%nat ->
                   call_primitive Pfirst args = Raise TypeError
                   /\ call_primitive Prest args = Raise TypeError).
Proof.
  split; [destruct l; reflexivity|]. split; [reflexivity|].
  split; [|split].
  - intros n. rewrite rest_iterated. simpl.
    replace (l !! n) with (drop n l !! 0%nat)
      by (rewrite lookup_drop; f_equal; lia).
    destruct (drop n l); reflexivity.
  - intros v Hv. destruct v; try (split; reflexivity).
    exfalso. eapply Hv. reflexivity.
  - intros [|a [|b args]] Hlen; simpl in *; try (split; reflexivity). lia.
Qed.

Lemma holds_Less a b : holds Less (Some (a ?= b)) = (a <? b).
Proof. unfold Z.ltb. destruct (a ?= b); reflexivity. Qed.

Lemma holds_Greater a b : holds Greater (Some (a ?= b)) = (b <? a).
Proof.
  unfold Z.ltb. rewrite (Z.compare_antisym a b).
  destruct (a ?= b); reflexivity.
Qed.

Lemma is_Eq_compare a b : is_Eq (Some (a ?= b)) = (a =? b).
Proof.
  destruct (Z.eqb_spec a b) as [->|Hne].
  - rewrite Z.compare_refl. reflexivity.
  - destruct (a ?= b) eqn:H; try reflexivity.
    apply Z.compare_eq in H. contradiction.
Qed.

(** X20: on two integers [<], [>] and [=] are the comparisons of integers;
    arguments behind the second are ignored, and fewer than two arguments
    raise [IndexError]. *)
Theorem comparisons_on_integers (a b : Z) (more : list value) :
  less_than (VInt a :: VInt b :: more) = Ok (VBool (a <? b))
  /\ greater_than (VInt a :: VInt b :: more) = Ok (VBool (b <? a))
  /\ equals (VInt a :: VInt b :: more) = Ok (VBool (a =? b))
  /\ (forall args, (length args < 2)%nat ->
        less_than args = Raise IndexError
        /\ greater_than args = Raise IndexError
        /\ equals args = Raise IndexError).
Proof.
  split; [|split; [|split]].
  - change (less_than (VInt a :: VInt b :: more))
      with (Ok (VBool (holds Less (Some (a ?= b))))).
    rewrite holds_Less. reflexivity.
  - change (greater_than (VInt a :: VInt b :: more))
      with (Ok (VBool (holds Greater (Some (a ?= b))))).
    rewrite holds_Greater. reflexivity.
  - change (equals (VInt a :: VInt b :: more))
      with (Ok (VBool (is_Eq (Some (a ?= b))))).
    rewrite is_Eq_compare. reflexivity.
  - intros [|x [|y args]] Hlen; simpl in Hlen; try lia; repeat split.
Qed.

(** X21: the default environment has no parent and binds the twelve names
    [+ - * / first rest list true false < > =] and no other: a [lookup]
    returns a value exactly for these names, and raises the not-defined
    exception for every other name. *)
Theorem default_environment_names (environment : Environment) (st : store) :
  init_default_environment empty_store = Ok (environment, st) ->
  parent_environment environment = None
  /\ (forall x v, lookup st environment x = Ok v <-> In (x, v) default_bindings)
  /\ (forall x, ~ In x (map fst default_bindings) ->
                lookup st environment x = Raise (NotDefined x)).
Proof.
  rewrite init_default_environment_empty. intros [= <- <-].
  assert (Hnd : NoDup (default_bindings.*1))
    by (apply (bool_decide_unpack _); vm_compute; reflexivity).
  assert (Hlookup : forall x,
            lookup {| frames := {[0%nat := list_to_map default_bindings]};
                      next_frame := 1; next_procedure := 0 |}
              (mkEnvironment 0 None) x
            = match (list_to_map default_bindings : dict) !! x with
              | Some v => Ok v
              | None => Raise (NotDefined x)
              end).
  { intros x. rewrite lookup_unfold. unfold frame_at.
    cbn [frames]. rewrite lookup_singleton_eq. reflexivity. }
  split; [reflexivity|]. split.
  - intros x v. rewrite Hlookup. split.
    + destruct (list_to_map default_bindings !! x) as [w|] eqn:Hw;
        [|discriminate].
      intros [= <-]. apply list_elem_of_In.
      apply (elem_of_list_to_map_2 (M:=gmap string)). exact Hw.
    + intros Hin. apply list_elem_of_In in Hin.
      apply (elem_of_list_to_map_1 (M:=gmap string)) in Hin; [|exact Hnd].
      rewrite Hin. reflexivity.
  - intros x Hx. rewrite Hlookup.
    rewrite (not_elem_of_list_to_map_1 (M:=gmap string) default_bindings x);
      [reflexivity|].
    intros Hin. apply Hx. apply list_elem_of_In. exact Hin.
Qed.

Lemma default_environment_names_witness :
  lookup {| frames := {[0%nat := list_to_map default_bindings]};
            next_frame := 1; next_procedure := 0 |}
    (mkEnvironment 0 None) "car"
  = Raise (NotDefined "car").
Proof.
  destruct (default_environment_names _ _ init_default_environment_empty)
    as (_ & _ & H).
  apply H. simpl. intuition discriminate.
Defined.

(** X22: a procedure is equal to itself and to no other: evaluating the
    same [fn] expression twice gives two procedures that [=] tells apart,
    while [=] answers true for either of them and itself. *)
Theorem procedures_are_distinct (fuel fuel' : nat) (head parameters body : exptree)
    (more : list exptree) (environment : Environment) (st st1 st2 : store)
    (f1 f2 : value) :
  is_symbol head "fn" || is_symbol head "lambda" = true ->
  evaluate (S fuel) (EList (head :: parameters :: body :: more)) environment st
    = Ok (f1, st1) ->
  evaluate (S fuel') (EList (head :: parameters :: body :: more)) environment st1
    = Ok (f2, st2) ->
  equals [f1; f2] = Ok (VBool false)
  /\ equals [f1; f1] = Ok (VBool true)
  /\ equals [f2; f2] = Ok (VBool true).
Proof.
  intros Hfn. rewrite !evaluate_list_unfold.
  assert (Hdef : is_symbol head "def" || is_symbol head "define" = false).
  { apply orb_prop in Hfn as [H|H]; apply is_symbol_true in H; subst; reflexivity. }
  assert (Hif : is_symbol head "if" = false).
  { apply orb_prop in Hfn as [H|H]; apply is_symbol_true in H; subst; reflexivity. }
  rewrite Hdef, Hif, Hfn. simpl.
  intros [= <- <-] [= <- <-]. simpl. unfold equals. simpl.
  replace (next_procedure st =? S (next_procedure st))%nat with false
    by (symmetry; apply Nat.eqb_neq; lia).
  rewrite (Nat.eqb_refl (next_procedure st)). repeat split.
Qed.

Lemma procedures_are_distinct_witness :
  exists f1 f2 st1 st2,
    evaluate 1 (EList [EStr "fn"; EList [EStr "x"]; EStr "x"])
      sample_global sample_store = Ok (f1, st1)
    /\ evaluate 1 (EList [EStr "fn"; EList [EStr "x"]; EStr "x"])
         sample_global st1 = Ok (f2, st2)
    /\ equals [f1; f2] = Ok (VBool false).
Proof.
  eexists _, _, _, _.
  assert (H1 : evaluate 1 (EList [EStr "fn"; EList [EStr "x"]; EStr "x"])
                 sample_global sample_store
               = Ok (Procedure_init sample_store (EList [EStr "x"]) (EStr "x")
                       sample_global)) by reflexivity.
  assert (H2 : evaluate 1 (EList [EStr "fn"; EList [EStr "x"]; EStr "x"])
                 sample_global
                 (snd (Procedure_init sample_store (EList [EStr "x"]) (EStr "x")
                         sample_global))
               = Ok (Procedure_init
                       (snd (Procedure_init sample_store (EList [EStr "x"])
                               (EStr "x") sample_global))
                       (EList [EStr "x"]) (EStr "x") sample_global))
    by reflexivity.
  split; [exact H1|]. split; [exact H2|].
  apply (procedures_are_distinct 0 0 (EStr "fn") (EList [EStr "x"]) (EStr "x") []
           sample_global sample_store _ _ _ _ eq_refl H1 H2).
Defined.

(** * Further properties of the session *)

Lemma repl_loop_app_gen fuel environment (lines1 lines2 : list string) :
  Forall (fun l => l <> "quit") lines1 ->
  forall st,
    repl_loop fuel environment st (lines1 ++ lines2)
    = (let* (p1, st1) := repl_loop fuel environment st lines1 in
       let* (p2, st2) := repl_loop fuel environment st1 lines2 in
       Ok (p1 ++ p2, st2)).
Proof.
  induction lines1 as [|l lines1 IH]; intros Hquit st.
  - simpl. destruct (repl_loop fuel environment st lines2) as [[p2 st2]| | |];
      reflexivity.
  - inversion Hquit as [|? ? Hl Hrest]; subst.
    apply String.eqb_neq in Hl. cbn [app repl_loop]. rewrite Hl.
    destruct (parse_expression l) as [tree| | |]; try reflexivity.
    cbn [bind].
    destruct (evaluate fuel tree environment st) as [[v st1]| | |];
      try reflexivity.
    cbn [bind]. rewrite (IH Hrest).
    destruct (repl_loop fuel environment st1 lines1) as [[p1 st1']| | |];
      try reflexivity.
    cbn [bind].
    destruct (repl_loop fuel environment st1' lines2) as [[p2 st2]| | |];
      reflexivity.
Qed.

(** X23: a session in two parts: as long as the first lines hold no
    [quit], running them and then the others, from the store the first ones
    leave, prints what the whole run prints and ends in the same store; an
    exception in any line ends the run with that exception.  Whatever
    follows a line [quit] is never read. *)
Theorem repl_loop_app (fuel : nat) (environment : Environment) (st : store)
    (lines1 lines2 : list string) :
  Forall (fun l => l <> "quit") lines1 ->
  repl_loop fuel environment st (lines1 ++ lines2)
  = (let* (p1, st1) := repl_loop fuel environment st lines1 in
     let* (p2, st2) := repl_loop fuel environment st1 lines2 in
     Ok (p1 ++ p2, st2))
  /\ repl_loop fuel environment st (lines1 ++ "quit" :: lines2)
     = repl_loop fuel environment st lines1.
Proof.
  intros Hquit. split; [apply repl_loop_app_gen; exact Hquit|].
  rewrite (repl_loop_app_gen _ _ _ _ Hquit).
  destruct (repl_loop fuel environment st lines1) as [[p1 st1]| | |];
    try reflexivity.
  simpl. rewrite app_nil_r. reflexivity.
Qed.

Lemma repl_loop_app_witness :
  repl_loop 5 sample_global sample_store
    (["(define z 4)"; "(+ z 1)"] ++ "quit" :: ["(nosuch)"])
  = repl_loop 5 sample_global sample_store ["(define z 4)"; "(+ z 1)"].
Proof.
  apply (repl_loop_app 5 sample_global sample_store
           ["(define z 4)"; "(+ z 1)"] ["(nosuch)"]).
  repeat constructor; discriminate.
Defined.

(** * The tokens of a text, written out again *)

Lemma punct_not_word c : is_punct c = true -> is_word c = false.
Proof.
  destruct c as [[|] [|] [|] [|] [|] [|] [|] [|]]; try discriminate;
    reflexivity.
Qed.

Lemma append_assoc_snoc (acc : string) c w :
  String.append (String.append acc (String c EmptyString)) w
  = String.append acc (String c w).
Proof.
  induction acc as [|d acc IH]; [reflexivity|].
  change (String d (String.append (String.append acc (String c EmptyString)) w)
          = String d (String.append acc (String c w))).
  rewrite IH. reflexivity.
Qed.

Lemma append_empty (acc : string) : String.append acc EmptyString = acc.
Proof.
  induction acc as [|d acc IH]; [reflexivity|].
  change (String d (String.append acc EmptyString) = String d acc).
  rewrite IH. reflexivity.
Qed.

Lemma scan_word (w : string) : forall acc,
  all_word w = true -> scan acc w = flush (String.append acc w) [].
Proof.
  induction w as [|c w IH]; intros acc Hw; simpl.
  - rewrite append_empty. reflexivity.
  - simpl in Hw. apply andb_prop in Hw as [Hc Hw]. rewrite Hc.
    rewrite IH by exact Hw. rewrite append_assoc_snoc. reflexivity.
Qed.

Lemma tokenize_token t : token_shape t -> tokenize t = [t].
Proof.
  intros [[Hne Hw]|(c & Hc & ->)].
  - unfold tokenize. rewrite scan_word by exact Hw. simpl.
    destruct t; [contradiction|reflexivity].
  - unfold tokenize. simpl. rewrite (punct_not_word c Hc), Hc. reflexivity.
Qed.

Lemma tokenize_concat (ts : list string) :
  Forall token_shape ts -> tokenize (String.concat " " ts) = ts.
Proof.
  induction ts as [|t ts IH]; intros Hts; [reflexivity|].
  inversion Hts as [|? ? Ht Hrest]; subst.
  destruct ts as [|t2 ts]; [apply tokenize_token; exact Ht|].
  change (String.concat " " (t :: t2 :: ts))
    with (String.append t (String " " (String.concat " " (t2 :: ts)))).
  unfold tokenize at 1. rewrite scan_split by reflexivity.
  change (scan EmptyString t) with (tokenize t).
  change (scan EmptyString (String.concat " " (t2 :: ts)))
    with (tokenize (String.concat " " (t2 :: ts))).
  rewrite (tokenize_token t Ht), (IH Hrest). reflexivity.
Qed.

(** X24: writing the tokens of a text out again, with one space between
    neighbours, gives a text with the same tokens, which is therefore read
    as the same tree or fails in the same way: the reader sees a text only
    through its tokens, and the spacing of a text does not matter. *)
Theorem tokens_round_trip (expression : string) :
  tokenize (String.concat " " (tokenize expression)) = tokenize expression
  /\ parse_expression (String.concat " " (tokenize expression))
     = parse_expression expression.
Proof.
  assert (H : tokenize (String.concat " " (tokenize expression))
              = tokenize expression)
    by (apply tokenize_concat, tokenize_shape).
  split; [exact H|]. unfold parse_expression. rewrite H. reflexivity.
Qed.
